(** * cmdcache: the record codec, the capture path and the replay path

    A shallow embedding of [main.go].  The program runs a command, tees its
    standard output and standard error through two timestamping writers into
    one channel, encodes every record of the channel with msgpack into a
    gzip-compressed file named after the md5 of the command line, and on a
    later run with the same command line replays the file instead of running
    the command.

    Conventions of the embedding.
    - A Go [int]/[int64] is a [Z]; conversions that wrap are written out.
    - A [[]byte] is a [list byte]; the program never builds a nil slice for
      [BufRecord.Buf], so nil and empty are not distinguished there.
    - The msgpack library (github.com/vmihailenco/msgpack, v3 API) and gzip
      are not part of the repository.  The wire format is modelled for the
      values the program writes and inspects; anything else the decoder
      meets is reported as [Unsupported], never guessed.  The gzip layer is
      transparent to the codec and is kept as a tag on file contents. *)

From Stdlib Require Import ZArith List Lia Bool String Ascii.
From Stdlib.Strings Require Import Byte.
From Stdlib Require Import DecimalString DecimalZ.
From stdpp Require Import base option gmap strings.
Import ListNotations.

Set Warnings "-register-all".
Local Open Scope Z_scope.

(** ** Bytes and fixed-width integers *)

Definition Z_of_byte (b : byte) : Z := Z.of_N (Byte.to_N b).

Definition byte_of_Z (z : Z) : byte :=
  match Byte.of_N (Z.to_N (z mod 256)) with
  | Some b => b
  | None => Byte.x00
  end.

(** Big-endian bytes of the low [8 * n] bits of [z], and the value of a
    big-endian byte string. *)
Fixpoint be_bytes (n : nat) (z : Z) : list byte :=
  match n with
  | O => []
  | S k => byte_of_Z (Z.shiftr z (8 * Z.of_nat k)) :: be_bytes k z
  end.

Definition be_value (bs : list byte) : Z :=
  fold_left (fun acc b => acc * 256 + Z_of_byte b) bs 0.

(** Two's complement reading of an unsigned [bits]-bit value. *)
Definition to_signed (bits : Z) (u : Z) : Z :=
  if u <? 2 ^ (bits - 1) then u else u - 2 ^ bits.

Definition MinInt64 : Z := - 2 ^ 63.
Definition MaxInt64 : Z := 2 ^ 63 - 1.

(** Conversion to [int64] with wrap-around. *)
Definition wrap64 (z : Z) : Z := to_signed 64 (z mod 2 ^ 64).

Definition in_int64 (z : Z) : bool := (MinInt64 <=? z) && (z <=? MaxInt64).

(** [take]/[drop] with the length check a reader makes. *)
Definition read_n (n : nat) (bs : list byte) : option (list byte * list byte) :=
  if (n <=? length bs)%nat then Some (firstn n bs, skipn n bs) else None.

(** ** The record *)

(** [BufRecord] is how the program shunts data around. *)
Record BufRecord := mkBufRecord {
  T : Z;
  Id : Z;
  Buf : list byte
}.

Definition StdOutTag : Z := 1.
Definition StdErrTag : Z := 2.
Definition ExitTag : Z := 127.

(** ** msgpack: the encoder *)

Module msgpack.

(** Dynamic type of a decoded integer. *)
Inductive ikind := Int8 | Int16 | Int32 | Int64 | Uint8 | Uint16 | Uint32 | Uint64.

(** What [DecodeInterface] hands back, for the part of the format that is
    modelled: nil, booleans, integers with their dynamic type, strings, byte
    slices and maps keyed by strings ([map[string]interface{}], kept as the
    list of assignments [m[k] = v] in decoding order, latest first). *)
Inductive value :=
| VNil
| VBool (b : bool)
| VInt (k : ikind) (z : Z)
| VStr (s : string)
| VBytes (bs : list byte)
| VMap (m : list (string * value)).

(** [EncodeUint]: the most compact of 1, 2, 3, 5 or 9 bytes. *)
Definition EncodeUint (n : Z) : list byte :=
  if n <=? 127 then [byte_of_Z n]
  else if n <=? 255 then byte_of_Z 204 :: be_bytes 1 n
  else if n <=? 65535 then byte_of_Z 205 :: be_bytes 2 n
  else if n <=? 4294967295 then byte_of_Z 206 :: be_bytes 4 n
  else byte_of_Z 207 :: be_bytes 8 n.

(** [EncodeInt]: non-negative numbers go through [EncodeUint]. *)
Definition EncodeInt (n : Z) : list byte :=
  if 0 <=? n then EncodeUint n
  else if -32 <=? n then [byte_of_Z n]
  else if -128 <=? n then byte_of_Z 208 :: be_bytes 1 n
  else if -32768 <=? n then byte_of_Z 209 :: be_bytes 2 n
  else if -2147483648 <=? n then byte_of_Z 210 :: be_bytes 4 n
  else byte_of_Z 211 :: be_bytes 8 n.

(** [EncodeString]: length header, then the bytes. *)
Definition EncodeString (s : string) : list byte :=
  let bs := list_byte_of_string s in
  let l := Z.of_nat (length bs) in
  (if l <? 32 then [byte_of_Z (160 + l)]
   else if l <? 256 then byte_of_Z 217 :: be_bytes 1 l
   else if l <? 65536 then byte_of_Z 218 :: be_bytes 2 l
   else byte_of_Z 219 :: be_bytes 4 l) ++ bs.

(** [EncodeBytes] of a non-nil slice; the length is cut to 32 bits. *)
Definition EncodeBytes (bs : list byte) : list byte :=
  let l := Z.of_nat (length bs) in
  (if l <? 256 then byte_of_Z 196 :: be_bytes 1 l
   else if l <? 65536 then byte_of_Z 197 :: be_bytes 2 l
   else byte_of_Z 198 :: be_bytes 4 l) ++ bs.

(** [Marshal] of a [BufRecord]: a struct is written as a map from field
    names to field values, in declaration order. *)
Definition Marshal (rec : BufRecord) : list byte :=
  byte_of_Z (128 + 3)
  :: EncodeString "T" ++ EncodeInt (T rec)
  ++ EncodeString "Id" ++ EncodeInt (Id rec)
  ++ EncodeString "Buf" ++ EncodeBytes (Buf rec).

(** ** msgpack: the decoder *)

(** Result of decoding one value from the front of a stream.  [DecodeErr] is
    the library returning a non-nil error (end of input, a value cut short,
    the unassigned code 0xc1).  [Unsupported] marks input that is outside the
    modelled part of the format (arrays, floats, extension types, a map key
    that is not a string).  [NoFuel] is an artefact of the recursion
    bound; [DecodeInterface_fuel] shows it is never returned. *)
Inductive dres :=
| Decoded (v : value) (rest : list byte)
| DecodeErr
| Unsupported
| NoFuel.

(** An unsigned big-endian integer of [n] bytes. *)
Definition read_uint (n : nat) (bs : list byte) : option (Z * list byte) :=
  match read_n n bs with
  | Some (hd, rest) => Some (be_value hd, rest)
  | None => None
  end.

(** A fixed-width integer of dynamic type [k] stored in [n] bytes. *)
Definition decode_int (k : ikind) (n : nat) (signed : bool) (bs : list byte) : dres :=
  match read_uint n bs with
  | Some (u, rest) =>
      Decoded (VInt k (if signed then to_signed (8 * Z.of_nat n) u else u)) rest
  | None => DecodeErr
  end.

(** [l] payload bytes after a length header. *)
Definition decode_payload (mk : list byte -> value) (l : Z) (bs : list byte) : dres :=
  match read_n (Z.to_nat l) bs with
  | Some (hd, rest) => Decoded (mk hd) rest
  | None => DecodeErr
  end.

(** Payload whose length is itself stored in [n] bytes. *)
Definition decode_sized (mk : list byte -> value) (n : nat) (bs : list byte) : dres :=
  match read_uint n bs with
  | Some (l, rest) => decode_payload mk l rest
  | None => DecodeErr
  end.

Definition mkStr (bs : list byte) : value := VStr (string_of_list_byte bs).

(** [DecodeString], as used for the keys of a map. *)
Definition DecodeString (bs : list byte) : dres :=
  match bs with
  | [] => DecodeErr
  | b :: rest =>
      let c := Z_of_byte b in
      if (160 <=? c) && (c <=? 191) then decode_payload mkStr (c - 160) rest
      else if c =? 217 then decode_sized mkStr 1 rest
      else if c =? 218 then decode_sized mkStr 2 rest
      else if c =? 219 then decode_sized mkStr 4 rest
      else Unsupported
  end.

(** The loop of [decodeMap]: [n] times a key and a value, each assigned
    into the map. *)
Fixpoint decode_entries (dec : list byte -> dres) (n : nat)
    (acc : list (string * value)) (bs : list byte) : dres :=
  match n with
  | O => Decoded (VMap acc) bs
  | S k =>
      match DecodeString bs with
      | Decoded (VStr key) rest =>
          match dec rest with
          | Decoded v rest' => decode_entries dec k ((key, v) :: acc) rest'
          | other => other
          end
      | Decoded _ _ => Unsupported
      | other => other
      end
  end.

Definition decode_map (dec : list byte -> dres) (n : nat) (bs : list byte) : dres :=
  match read_uint n bs with
  | Some (l, rest) => decode_entries dec (Z.to_nat l) [] rest
  | None => DecodeErr
  end.

(** [DecodeInterface] with a bound on the nesting depth. *)
Fixpoint decode_value (fuel : nat) (bs : list byte) : dres :=
  match fuel with
  | O => NoFuel
  | S f =>
      match bs with
      | [] => DecodeErr
      | b :: rest =>
          let c := Z_of_byte b in
          if c <=? 127 then Decoded (VInt Int8 c) rest
          else if c <=? 143 then decode_entries (decode_value f) (Z.to_nat (c - 128)) [] rest
          else if c <=? 159 then Unsupported
          else if c <=? 191 then decode_payload mkStr (c - 160) rest
          else if c =? 192 then Decoded VNil rest
          else if c =? 193 then DecodeErr
          else if c =? 194 then Decoded (VBool false) rest
          else if c =? 195 then Decoded (VBool true) rest
          else if c =? 196 then decode_sized VBytes 1 rest
          else if c =? 197 then decode_sized VBytes 2 rest
          else if c =? 198 then decode_sized VBytes 4 rest
          else if c <=? 203 then Unsupported
          else if c =? 204 then decode_int Uint8 1 false rest
          else if c =? 205 then decode_int Uint16 2 false rest
          else if c =? 206 then decode_int Uint32 4 false rest
          else if c =? 207 then decode_int Uint64 8 false rest
          else if c =? 208 then decode_int Int8 1 true rest
          else if c =? 209 then decode_int Int16 2 true rest
          else if c =? 210 then decode_int Int32 4 true rest
          else if c =? 211 then decode_int Int64 8 true rest
          else if c <=? 216 then Unsupported
          else if c =? 217 then decode_sized mkStr 1 rest
          else if c =? 218 then decode_sized mkStr 2 rest
          else if c =? 219 then decode_sized mkStr 4 rest
          else if c <=? 221 then Unsupported
          else if c =? 222 then decode_map (decode_value f) 2 rest
          else if c =? 223 then decode_map (decode_value f) 4 rest
          else Decoded (VInt Int8 (c - 256)) rest
      end
  end.

(** Every value takes at least one byte, so the length of the input bounds
    the nesting depth. *)
Definition DecodeInterface (bs : list byte) : dres :=
  decode_value (S (length bs)) bs.

(** Indexing a [map[string]interface{}]: the latest assignment to the key,
    the nil interface when there is none. *)
Fixpoint map_get (m : list (string * value)) (key : string) : value :=
  match m with
  | [] => VNil
  | (k, v) :: m' => if String.eqb k key then v else map_get m' key
  end.

End msgpack.

Import msgpack.

(** ** Time *)

(** A [time.Time] is a number of nanoseconds; a [time.Duration] is an [int64]
    number of nanoseconds and [Sub] saturates. *)
Definition Millisecond : Z := 1000000.
Definition Second : Z := 1000000000.

Definition time_Sub (t u : Z) : Z :=
  if t - u <? MinInt64 then MinInt64
  else if MaxInt64 <? t - u then MaxInt64
  else t - u.

(** ** The timestamped stream *)

(** [Timestamped]: the time of the previous write and the stream id (the
    channel is the argument and result of the functions that use it). *)
Record Timestamped := mkTimestamped {
  t : Z;
  id : Z
}.

(** [OpenTS] sets up a stream; [now] is the reading of [time.Now()]. *)
Definition OpenTS (id : Z) (now : Z) : Timestamped := mkTimestamped now id.

(** [Write]: the record sent to the channel and the stream afterwards.
    [tn] is the reading of [time.Now()]; the division truncates. *)
Definition Write (ts : Timestamped) (tn : Z) (d : list byte)
    : BufRecord * Timestamped :=
  let dif := Z.quot (time_Sub tn (t ts)) Millisecond in
  (mkBufRecord dif (id ts) d, mkTimestamped tn (id ts)).

(** ** [DurationOf] *)

(** [fmt.Sprintf("%v", i)] for an integer of any dynamic type. *)
Definition Sprintf_v (z : Z) : string := NilEmpty.string_of_int (Z.to_int z).

(** [fmt.Sscanf(s, "%d", &d)] into a zero [int]: the number read, and zero
    when the text is not a number or does not fit. *)
Definition Sscanf_d (s : string) : Z :=
  match NilEmpty.int_of_string s with
  | Some i => if in_int64 (Z.of_int i) then Z.of_int i else 0
  | None => 0
  end.

(** [DurationOf] prints the value and reads the text back.  The text that
    [%v] gives for a value that is not an integer is not modelled ([None]). *)
Definition DurationOf (i : value) : option Z :=
  match i with
  | VInt _ z => Some (Sscanf_d (Sprintf_v z))
  | _ => None
  end.

(** ** [plex] *)

(** What [plex] does, in order: a write to [f], the signal on [finished]. *)
Inductive pevent :=
| FWrite (out : list byte)
| Finished.

(** [plex] over the records in the order the channel delivers them;
    [marshal] is [msgpack.Marshal] with its error as [None].  The result is
    what [plex] did, whether it returned, and the records it never
    received.  When the channel delivers no further record [plex] is
    blocked on the receive. *)
Fixpoint plex (marshal : BufRecord -> option (list byte)) (ch : list BufRecord)
    : list pevent * bool * list BufRecord :=
  match ch with
  | [] => ([], false, [])
  | rec :: ch' =>
      match marshal rec with
      | Some out =>
          if Id rec =? 127 then ([FWrite out; Finished], true, ch')
          else
            let '(evs, returned, unread) := plex marshal ch' in
            (FWrite out :: evs, returned, unread)
      | None => plex marshal ch'
      end
  end.

(** [msgpack.Marshal] of a [BufRecord] has no failing case. *)
Definition Marshal_ok (rec : BufRecord) : option (list byte) := Some (Marshal rec).

(** The bytes that reached [f]. *)
Fixpoint written (evs : list pevent) : list byte :=
  match evs with
  | [] => []
  | FWrite out :: evs' => out ++ written evs'
  | Finished :: evs' => written evs'
  end.

(** ** The world of [main] *)

(** What the program does to the console and the clock, in order. *)
Inductive event :=
| Sleep (ns : Z)
| Stdout (bs : list byte)
| Stderr (bs : list byte).

(** How the process ends: [panic(Exit{code})] caught by [handleExit], a
    run-time panic that is not an [Exit], a wait that is never satisfied.
    [OutsideModel] is a run that met input the decoder model leaves out. *)
Inductive outcome :=
| Exit (code : Z)
| Crash
| Blocked
| OutsideModel.

(** Contents of a file as [gzip.NewReader] sees them: not a gzip stream, or
    a gzip stream that decompresses to [stream]. *)
Inductive contents :=
| NotGzip
| Gzip (stream : list byte).

Record File := mkFile {
  ModTime : Z;
  data : contents
}.

(** The bytes written to each console stream. *)
Fixpoint stdout_of (evs : list event) : list byte :=
  match evs with
  | [] => []
  | Stdout bs :: evs' => bs ++ stdout_of evs'
  | _ :: evs' => stdout_of evs'
  end.

Fixpoint stderr_of (evs : list event) : list byte :=
  match evs with
  | [] => []
  | Stderr bs :: evs' => bs ++ stderr_of evs'
  | _ :: evs' => stderr_of evs'
  end.

(** ** Replay *)

(** The three type assertions at the head of the loop body: the decoded
    value is a map, its ["Id"] an [int8], its ["Buf"] a byte slice.  [None]
    is the panic of a failed assertion; otherwise the value under ["T"],
    the id and the buffer. *)
Definition assert_fields (i : value) : option (value * Z * list byte) :=
  match i with
  | VMap rec =>
      match map_get rec "Id" with
      | VInt Int8 id =>
          match map_get rec "Buf" with
          | VBytes buf => Some (map_get rec "T", id, buf)
          | _ => None
          end
      | _ => None
      end
  | _ => None
  end.

(** One decoded value, as the body of the replay loop treats it: the type
    assertions, the optional sleep, the switch on the id.  The result is
    what was emitted and either the exit code to carry on with or the way
    the loop is left. *)
Definition replay_step (delay : bool) (exitCode : Z) (i : value)
    : list event * (Z + outcome) :=
  match assert_fields i with
  | Some (tv, id, buf) =>
      let slept :=
        if delay then
          match DurationOf tv with
          | Some T => Some [Sleep (wrap64 (T * Millisecond))]
          | None => None
          end
        else Some [] in
      match slept with
      | None => ([], inr OutsideModel)
      | Some sl =>
          if id =? 1 then (sl ++ [Stdout buf], inl exitCode)
          else if id =? 2 then (sl ++ [Stderr buf], inl exitCode)
          else if id =? 127 then
            match buf with
            | b :: _ => (sl, inl (Z_of_byte b))
            | [] => (sl, inr Crash)
            end
          else (sl, inl exitCode)
      end
  | None => ([], inr Crash)
  end.

(** The replay loop over the decompressed stream: decode, treat, repeat;
    an error of the decoder is the end of the stream. *)
Fixpoint replay_loop (fuel : nat) (delay : bool) (exitCode : Z) (bs : list byte)
    : list event * outcome :=
  match fuel with
  | O => ([], Blocked)
  | S f =>
      match DecodeInterface bs with
      | Decoded i rest =>
          match replay_step delay exitCode i with
          | (evs, inl exitCode') =>
              let '(evs', o) := replay_loop f delay exitCode' rest in
              (evs ++ evs', o)
          | (evs, inr o) => (evs, o)
          end
      | DecodeErr => ([], Exit exitCode)
      | Unsupported => ([], OutsideModel)
      | NoFuel => ([], Blocked)
      end
  end.

(** The record that the loop reads out of one decoded value: the id, the
    buffer and, through [DurationOf], the elapsed time. *)
Definition decode_record (i : value) : option BufRecord :=
  match assert_fields i with
  | Some (tv, id, buf) =>
      match DurationOf tv with
      | Some T => Some (mkBufRecord T id buf)
      | None => None
      end
  | None => None
  end.

(** The records that the loop reads from a stream, up to the error of the
    decoder that ends it. *)
Fixpoint decode_records (fuel : nat) (bs : list byte) : option (list BufRecord) :=
  match fuel with
  | O => None
  | S f =>
      match DecodeInterface bs with
      | Decoded i rest =>
          match decode_record i with
          | Some rec =>
              match decode_records f rest with
              | Some recs => Some (rec :: recs)
              | None => None
              end
          | None => None
          end
      | DecodeErr => Some []
      | _ => None
      end
  end.

Definition decode_stream (bs : list byte) : option (list BufRecord) :=
  decode_records (S (length bs)) bs.

(** Encoding record by record, as [plex] writes them. *)
Definition encode_stream (recs : list BufRecord) : list byte :=
  flat_map Marshal recs.

(** The replay branch of [main].  [opened] tells whether [os.Open]
    succeeded; its error is dropped, and so is that of [gzip.NewReader],
    which leaves a nil reader behind: the first read through it is a nil
    dereference. *)
Definition replay (delay : bool) (opened : bool) (f : File) : list event * outcome :=
  if opened then
    match data f with
    | Gzip stream => replay_loop (S (length stream)) delay 0 stream
    | NotGzip => ([], Crash)
    end
  else ([], Crash).

(** ** Capture *)

(** What [cmd.Wait()] returned: nil, an [*exec.ExitError] whose [Sys()] is a
    [syscall.WaitStatus] with the given [ExitStatus()] (or is not one), or
    any other error. *)
Inductive WaitResult :=
| WaitNil
| WaitExitError (status : option Z)
| WaitOther.

(** One [Write] that [io.Copy] makes on a leg of the tee: the leg, the
    reading of [time.Now()] inside [Write], and the bytes of the slice as
    [plex] marshals them ([Write] does not copy the slice: the [copy] into
    the empty [data] copies nothing and the record holds [d] itself). *)
Inductive leg := LegOut | LegErr.

Record chunk := mkChunk {
  src : leg;
  at_time : Z;
  bytes : list byte
}.

(** The command as the session meets it.  [NotStarted er]: [cmd.Start()]
    returned [er]; the pipes are closed, so the copies deliver nothing, and
    [cmd.Wait()] reports that the command was not started.  [Started]: the
    writes whose send on the channel is received before that of [main], the
    writes whose send comes later, and the result of [cmd.Wait()]. *)
Inductive Child :=
| NotStarted (er : string)
| Started (delivered late : list chunk) (wait : WaitResult).

Definition delivered_of (c : Child) : list chunk :=
  match c with NotStarted _ => [] | Started d _ _ => d end.

Definition late_of (c : Child) : list chunk :=
  match c with NotStarted _ => [] | Started _ l _ => l end.

Definition Wait (c : Child) : WaitResult :=
  match c with NotStarted _ => WaitOther | Started _ _ w => w end.

(** The readings and results that one run of [main] gets from outside. *)
Record Env := mkEnv {
  now : Z;          (* time.Now() in the freshness test and at os.Create *)
  opened : bool;    (* os.Open succeeds *)
  created : bool;   (* os.Create succeeds *)
  openOut : Z;      (* time.Now() in OpenTS(1, ch) *)
  openErr : Z;      (* time.Now() in OpenTS(2, ch) *)
  child : Child;
  closed_at : Z     (* modification time left by the last write *)
}.

Record Flags := mkFlags {
  ttl : Z;
  delay : bool;
  keepNeg : bool
}.

(** The two legs write through their own [Timestamped]; each write yields a
    record for the channel. *)
Fixpoint stamp (out err : Timestamped) (cs : list chunk)
    : list BufRecord * (Timestamped * Timestamped) :=
  match cs with
  | [] => ([], (out, err))
  | c :: cs' =>
      match src c with
      | LegOut =>
          let '(rec, out') := Write out (at_time c) (bytes c) in
          let '(recs, st) := stamp out' err cs' in
          (rec :: recs, st)
      | LegErr =>
          let '(rec, err') := Write err (at_time c) (bytes c) in
          let '(recs, st) := stamp out err' cs' in
          (rec :: recs, st)
      end
  end.

(** The exit code after [cmd.Wait()]. *)
Definition exitCode_of (w : WaitResult) : Z :=
  match w with
  | WaitExitError (Some status) => status
  | _ => 0
  end.

(** Whether the session removes the entry: after a failed start, and after
    an [*exec.ExitError] unless negative results are kept. *)
Definition removes (keepNeg : bool) (c : Child) : bool :=
  match c with
  | NotStarted _ => true
  | Started _ _ (WaitExitError _) => negb keepNeg
  | Started _ _ _ => false
  end.

(** The record [main] sends once the command has exited. *)
Definition exit_record (exitCode : Z) : BufRecord :=
  mkBufRecord 0 127 [byte_of_Z exitCode].

(** The records in the order the channel delivers them. *)
Definition channel (env : Env) : list BufRecord :=
  let '(before, (out, err)) :=
    stamp (OpenTS 1 (openOut env)) (OpenTS 2 (openErr env)) (delivered_of (child env)) in
  let '(after, _) := stamp out err (late_of (child env)) in
  before ++ exit_record (exitCode_of (Wait (child env))) :: after.

(** The result of one run: the files afterwards, the console, what was
    written to the sink of the entry, whether the command was started, and
    how the process ended. *)
Record Result := mkResult {
  files : gmap string File;
  console : list event;
  sink : list pevent;
  started : bool;
  ending : outcome
}.

Definition start_message (c : Child) : list event :=
  match c with
  | NotStarted er =>
      [Stderr (list_byte_of_string
                 (String.append "cmd.Start() failed with '"
                    (String.append er (String.append "'" (String (ascii_of_nat 10) "")))))]
  | Started _ _ _ => []
  end.

Definition is_started (c : Child) : bool :=
  match c with NotStarted _ => false | Started _ _ _ => true end.

(** The capture branch of [main].  The tee of the output to the console of
    the running program is left out.  The entry is created (the error of
    [os.Create] is dropped; writes through a nil file fail and [plex] does
    not look at them), the command is started, [plex] encodes the channel,
    and the deferred [Close] of the compressor puts the stream in the file
    if the file exists and is still linked under its name. *)
Definition capture (location : string) (fl : Flags) (env : Env)
    (fs : gmap string File) : Result :=
  let fs1 := if created env then <[location := mkFile (now env) NotGzip]> fs else fs in
  let fs2 := if removes (keepNeg fl) (child env) then delete location fs1 else fs1 in
  let exitCode := exitCode_of (Wait (child env)) in
  let '(pevs, returned, _) := plex Marshal_ok (channel env) in
  if returned then
    mkResult
      (if created env && negb (removes (keepNeg fl) (child env))
       then <[location := mkFile (closed_at env) (Gzip (written pevs))]> fs2
       else fs2)
      (start_message (child env)) pevs (is_started (child env)) (Exit exitCode)
  else
    mkResult fs2 (start_message (child env)) pevs (is_started (child env)) Blocked.

(** ** Lookup and [main] *)

(** The test on the age of an entry that [os.Stat] found: the ttl is -1 or
    the age in whole seconds is at most the ttl. *)
Definition is_fresh (ttl : Z) (now : Z) (stat : File) : bool :=
  (ttl =? -1) || (Z.quot (time_Sub now (ModTime stat)) Second <=? ttl).

(** The condition of the [if] in [main]: the entry when it is there and
    fresh. *)
Definition lookup_entry (location : string) (ttl : Z) (now : Z)
    (fs : gmap string File) : option File :=
  match fs !! location with
  | Some stat => if is_fresh ttl now stat then Some stat else None
  | None => None
  end.

(** [main] once the location of the entry is known. *)
Definition run (location : string) (fl : Flags) (env : Env)
    (fs : gmap string File) : Result :=
  match lookup_entry location (ttl fl) (now env) fs with
  | Some f =>
      let '(evs, o) := replay (delay fl) (opened env) f in
      mkResult fs evs [] false o
  | None => capture location fl env fs
  end.

(** ** The name of the entry *)

Definition hex_digit (n : Z) : ascii :=
  if n <? 10 then ascii_of_nat (Z.to_nat (48 + n))
  else ascii_of_nat (Z.to_nat (87 + n)).

(** [fmt.Sprintf("%x", digest)]: two lower-case digits a byte. *)
Fixpoint Sprintf_x (bs : list byte) : string :=
  match bs with
  | [] => EmptyString
  | b :: bs' =>
      String (hex_digit (Z_of_byte b / 16))
        (String (hex_digit (Z_of_byte b mod 16)) (Sprintf_x bs'))
  end.

Section Key.

(** [md5.Sum] and [path.Join] belong to the standard library of Go; the
    usage text depends on the name of the program. *)
Variable md5_Sum : list byte -> list byte.
Variable path_Join : list string -> string.
Variables usage_text defaults_text : list byte.

Definition filename (args : list string) : string :=
  String.append
    (Sprintf_x (md5_Sum (list_byte_of_string (String.concat " " args))))
    ".ts".

Definition location (home : string) (args : list string) : string :=
  path_Join [home; ".cmdcache"; filename args].

(** [main]: without a command the usage is printed and the exit code is
    1; [home] is [os.Getenv("HOME")]. *)
Definition main (home : string) (fl : Flags) (args : list string)
    (env : Env) (fs : gmap string File) : Result :=
  match args with
  | [] => mkResult fs [Stdout usage_text; Stderr defaults_text] [] false (Exit 1)
  | _ :: _ => run (location home args) fl env fs
  end.

End Key.

(** ** Notions used in the statements *)

(** The dynamic type under which an [int] comes back. *)
Definition int_kind (n : Z) : ikind :=
  if 0 <=? n then
    if n <=? 127 then Int8
    else if n <=? 255 then Uint8
    else if n <=? 65535 then Uint16
    else if n <=? 4294967295 then Uint32
    else Uint64
  else
    if -128 <=? n then Int8
    else if -32768 <=? n then Int16
    else if -2147483648 <=? n then Int32
    else Int64.

(** A record that the codec holds: both integers are [int64] and the
    payload is shorter than 2^32 bytes. *)
Definition encodable (rec : BufRecord) : Prop :=
  in_int64 (T rec) = true /\ in_int64 (Id rec) = true
  /\ Z.of_nat (length (Buf rec)) < 2 ^ 32.

(** The map that [DecodeInterface] builds from a marshalled record. *)
Definition record_value (rec : BufRecord) : value :=
  VMap [("Buf"%string, VBytes (Buf rec));
        ("Id"%string, VInt (int_kind (Id rec)) (Id rec));
        ("T"%string, VInt (int_kind (T rec)) (T rec))].

(** A record that survives the trip: the elapsed time is an [int64], the
    id comes back as an [int8], the payload is shorter than 2^32 bytes. *)
Definition storable (rec : BufRecord) : Prop :=
  in_int64 (T rec) = true /\ -128 <= Id rec <= 127
  /\ Z.of_nat (length (Buf rec)) < 2 ^ 32.

(** [r], obtained from the input [bs], is not [NoFuel], and a decoded
    value leaves at least [k] bytes fewer than there were. *)
Definition shrinks (k : nat) (bs : list byte) (r : dres) : Prop :=
  r <> NoFuel /\
  forall v rest, r = Decoded v rest -> (length rest + k <= length bs)%nat.

(** What the loop emits for one record and the exit code it carries on
    with. *)
Definition emit (delay : bool) (rec : BufRecord) : list event :=
  (if delay then [Sleep (wrap64 (T rec * Millisecond))] else [])
  ++ (if Id rec =? 1 then [Stdout (Buf rec)]
      else if Id rec =? 2 then [Stderr (Buf rec)]
      else []).

Definition exit_after (exitCode : Z) (rec : BufRecord) : Z :=
  if Id rec =? 127 then
    match Buf rec with
    | b :: _ => Z_of_byte b
    | [] => exitCode
    end
  else exitCode.

(** A record the loop plays without a panic: an exit-status record has a
    first byte. *)
Definition playable (rec : BufRecord) : Prop :=
  storable rec /\ (Id rec = 127 -> Buf rec <> []).

(** The exit code of a replayed sequence: that of its last exit-status
    record, zero when it has none. *)
Definition last_exit (recs : list BufRecord) : Z := fold_left exit_after recs 0.

Definition leg_id (l : leg) : Z :=
  match l with LegOut => 1 | LegErr => 2 end.

(** The records of the writes that are received before that of [main]. *)
Definition delivered_records (env : Env) : list BufRecord :=
  fst (stamp (OpenTS 1 (openOut env)) (OpenTS 2 (openErr env))
         (delivered_of (child env))).

Definition late_records (env : Env) : list BufRecord :=
  let '(_, (out, err)) :=
    stamp (OpenTS 1 (openOut env)) (OpenTS 2 (openErr env)) (delivered_of (child env)) in
  fst (stamp out err (late_of (child env))).

(** The sequence of records that a capture encodes. *)
Definition captured (env : Env) : list BufRecord :=
  delivered_records env ++ [exit_record (exitCode_of (Wait (child env)))].

(** The first payload bytes of the exit-status records of a sequence. *)
Definition exit_bytes (recs : list BufRecord) : list Z :=
  flat_map (fun r =>
    if Id r =? 127 then
      match Buf r with
      | b :: _ => [Z_of_byte b]
      | [] => []
      end
    else []) recs.

(** The payloads of the records with a given id, in order. *)
Definition payloads (tag : Z) (recs : list BufRecord) : list byte :=
  flat_map (fun r => if Id r =? tag then Buf r else []) recs.

(** A captured run: "A" on standard output after a second, "B" on standard
    error, and the exit code 255. *)
Definition sample_records : list BufRecord :=
  [mkBufRecord 1000000000 1 ["A"%byte]; mkBufRecord 0 2 ["B"%byte];
   mkBufRecord 0 127 [byte_of_Z 255]].

(** A record cut short after five bytes. *)
Definition cut_short : list byte := firstn 5 (Marshal (exit_record 7)).

(** The age of an entry in whole seconds. *)
Definition age (now : Z) (stat : File) : Z :=
  Z.quot (time_Sub now (ModTime stat)) Second.

(** A write of fewer than 2^32 bytes. *)
Definition small (c : chunk) : Prop := Z.of_nat (length (bytes c)) < 2 ^ 32.

(** A command that prints "no" on standard error and exits with 3. *)
Definition failing_child : Child :=
  Started [mkChunk LegErr 2000000 ["n"%byte; "o"%byte]] [] (WaitExitError (Some 3)).

(** An entry with the one record of a run without output. *)
Definition quiet_entry : File := mkFile 0 (Gzip (encode_stream [exit_record 0])).

(** An example of the collision from end to end.  Any function serves as
    the digest; this one keeps the first sixteen bytes.  The first run
    captures "hi" from a command that exits with 0; the second run, with
    the other argument list, finds the entry. *)
Definition sample_digest (bs : list byte) : list byte := firstn 16 bs.
Definition sample_join (parts : list string) : string := String.concat "/" parts.

Definition first_env : Env :=
  mkEnv 0 true true 0 0
    (Started [mkChunk LegOut 3000000 ["h"%byte; "i"%byte]] [] WaitNil) 9.

Definition second_env : Env :=
  mkEnv 20 true true 20 20 (Started [] [] WaitNil) 29.

Definition first_entry : File :=
  mkFile 9 (Gzip (encode_stream (captured first_env))).

(** ** Further notions *)

(** The writes of one leg. *)
Definition on_leg (l : leg) (c : chunk) : bool :=
  match l, src c with
  | LegOut, LegOut => true
  | LegErr, LegErr => true
  | _, _ => false
  end.

(** The console without the sleeps. *)
Definition is_output (e : event) : bool :=
  match e with
  | Sleep _ => false
  | _ => true
  end.

Definition without_sleeps (evs : list event) : list event :=
  List.filter is_output evs.

(** What the replay of one captured write puts on the console. *)
Definition play_chunk (c : chunk) : event :=
  match src c with
  | LegOut => Stdout (bytes c)
  | LegErr => Stderr (bytes c)
  end.

(** Whether [marshal] gives bytes for a record. *)
Definition marshals (marshal : BufRecord -> option (list byte)) (rec : BufRecord) : bool :=
  match marshal rec with
  | Some _ => true
  | None => false
  end.

(** The sum of the elapsed times of a sequence of records. *)
Definition total_elapsed (recs : list BufRecord) : Z :=
  fold_right (fun r acc => T r + acc) 0 recs.

(** Times that never go back, from [t0] on. *)
Fixpoint ascending (t0 : Z) (cs : list chunk) : Prop :=
  match cs with
  | [] => True
  | c :: cs' => t0 <= at_time c /\ ascending (at_time c) cs'
  end.

(** The time of the last write, [t0] when there is none. *)
Fixpoint last_time (t0 : Z) (cs : list chunk) : Z :=
  match cs with
  | [] => t0
  | c :: cs' => last_time (at_time c) cs'
  end.

(** Whether a string holds a space. *)
Fixpoint has_space (s : string) : bool :=
  match s with
  | EmptyString => false
  | String c s' => Ascii.eqb c " " || has_space s'
  end.

(** Two writes, 1.9 ms and 3.8 ms after the opening: 1 ms and 1 ms are
    recorded for 3.8 ms. *)
Definition two_writes : list chunk :=
  [mkChunk LegOut 1900000 ["a"%byte]; mkChunk LegOut 3800000 ["b"%byte]].

(** A record with the id 128, which the writer encodes as a [uint8]. *)
Definition wide_record : BufRecord := mkBufRecord 0 128 ["x"%byte].

(** An entry ten seconds old, under a ttl of five seconds. *)
Definition old_entry : File := mkFile 0 (Gzip (encode_stream [exit_record 4])).

(** * Properties *)

(** ** Bytes *)

Lemma Z_of_byte_range (b : byte) : 0 <= Z_of_byte b < 256.
Proof.
  unfold Z_of_byte. pose proof (Byte.to_N_bounded b) as H.
  split; [apply N2Z.is_nonneg | lia].
Qed.

Lemma Z_of_byte_of_Z (z : Z) : Z_of_byte (byte_of_Z z) = z mod 256.
Proof.
  unfold Z_of_byte, byte_of_Z.
  assert (Hr : 0 <= z mod 256 < 256) by (apply Z.mod_pos_bound; lia).
  destruct (Byte.of_N (Z.to_N (z mod 256))) as [b|] eqn:E.
  - apply Byte.to_of_N in E. rewrite E. rewrite Z2N.id; lia.
  - apply Byte.of_N_None_iff in E. lia.
Qed.

Lemma Z_of_byte_small (z : Z) : 0 <= z < 256 -> Z_of_byte (byte_of_Z z) = z.
Proof. intros H. rewrite Z_of_byte_of_Z. apply Z.mod_small; lia. Qed.

Lemma byte_of_Z_of_byte (b : byte) : byte_of_Z (Z_of_byte b) = b.
Proof.
  unfold byte_of_Z. rewrite Z.mod_small by apply Z_of_byte_range.
  unfold Z_of_byte. rewrite N2Z.id. now rewrite Byte.of_to_N.
Qed.

Lemma length_be_bytes (n : nat) (z : Z) : length (be_bytes n z) = n.
Proof. induction n; simpl; congruence. Qed.

Lemma be_fold (n : nat) (z acc : Z) :
  fold_left (fun a b => a * 256 + Z_of_byte b) (be_bytes n z) acc
  = acc * 2 ^ (8 * Z.of_nat n) + z mod 2 ^ (8 * Z.of_nat n).
Proof.
  revert acc. induction n as [|k IH]; intros acc.
  - simpl. rewrite Z.mod_1_r. lia.
  - cbn [be_bytes fold_left]. rewrite IH, Z_of_byte_of_Z.
    rewrite Z.shiftr_div_pow2 by lia.
    replace (8 * Z.of_nat (S k)) with (8 * Z.of_nat k + 8) by lia.
    rewrite Z.pow_add_r by lia.
    change (2 ^ 8) with 256.
    assert (Hp : 0 < 2 ^ (8 * Z.of_nat k)) by (apply Z.pow_pos_nonneg; lia).
    rewrite (Z.rem_mul_r z (2 ^ (8 * Z.of_nat k)) 256) by lia.
    lia.
Qed.

Lemma be_value_be_bytes (n : nat) (z : Z) :
  be_value (be_bytes n z) = z mod 2 ^ (8 * Z.of_nat n).
Proof. unfold be_value. rewrite be_fold. lia. Qed.

Lemma read_n_app (n : nat) (hd rest : list byte) :
  length hd = n -> read_n n (hd ++ rest) = Some (hd, rest).
Proof.
  intros <-. unfold read_n.
  rewrite length_app.
  destruct (Nat.leb_spec (length hd) (length hd + length rest)); [|lia].
  rewrite firstn_app, Nat.sub_diag, firstn_all, firstn_O, app_nil_r.
  rewrite skipn_app, Nat.sub_diag, skipn_all. reflexivity.
Qed.

Lemma read_uint_be (n : nat) (z : Z) (rest : list byte) :
  0 <= z < 2 ^ (8 * Z.of_nat n) ->
  read_uint n (be_bytes n z ++ rest) = Some (z, rest).
Proof.
  intros H. unfold read_uint.
  rewrite read_n_app by apply length_be_bytes.
  rewrite be_value_be_bytes, Z.mod_small by lia. reflexivity.
Qed.

(** ** The codec *)

Lemma read_uint_app (n : nat) (z : Z) (rest : list byte) :
  read_uint n (be_bytes n z ++ rest) = Some (z mod 2 ^ (8 * Z.of_nat n), rest).
Proof.
  unfold read_uint.
  rewrite read_n_app by apply length_be_bytes.
  now rewrite be_value_be_bytes.
Qed.

Ltac split_cmp :=
  repeat match goal with
  | |- context [Z.leb ?a ?b] => destruct (Z.leb_spec a b); try lia
  | |- context [Z.ltb ?a ?b] => destruct (Z.ltb_spec a b); try lia
  | |- context [Z.eqb ?a ?b] => destruct (Z.eqb_spec a b); try lia
  end.

Lemma decode_value_cons (f : nat) (b : byte) (rest : list byte) (c : Z) :
  Z_of_byte b = c ->
  decode_value (S f) (b :: rest) =
    if c <=? 127 then Decoded (VInt Int8 c) rest
    else if c <=? 143 then decode_entries (decode_value f) (Z.to_nat (c - 128)) [] rest
    else if c <=? 159 then Unsupported
    else if c <=? 191 then decode_payload mkStr (c - 160) rest
    else if c =? 192 then Decoded VNil rest
    else if c =? 193 then DecodeErr
    else if c =? 194 then Decoded (VBool false) rest
    else if c =? 195 then Decoded (VBool true) rest
    else if c =? 196 then decode_sized VBytes 1 rest
    else if c =? 197 then decode_sized VBytes 2 rest
    else if c =? 198 then decode_sized VBytes 4 rest
    else if c <=? 203 then Unsupported
    else if c =? 204 then decode_int Uint8 1 false rest
    else if c =? 205 then decode_int Uint16 2 false rest
    else if c =? 206 then decode_int Uint32 4 false rest
    else if c =? 207 then decode_int Uint64 8 false rest
    else if c =? 208 then decode_int Int8 1 true rest
    else if c =? 209 then decode_int Int16 2 true rest
    else if c =? 210 then decode_int Int32 4 true rest
    else if c =? 211 then decode_int Int64 8 true rest
    else if c <=? 216 then Unsupported
    else if c =? 217 then decode_sized mkStr 1 rest
    else if c =? 218 then decode_sized mkStr 2 rest
    else if c =? 219 then decode_sized mkStr 4 rest
    else if c <=? 221 then Unsupported
    else if c =? 222 then decode_map (decode_value f) 2 rest
    else if c =? 223 then decode_map (decode_value f) 4 rest
    else Decoded (VInt Int8 (c - 256)) rest.
Proof. intros <-. reflexivity. Qed.

Lemma decode_int_be (k : ikind) (n : nat) (sg : bool) (z : Z) (rest : list byte) :
  decode_int k n sg (be_bytes n z ++ rest) =
    Decoded (VInt k (if sg then to_signed (8 * Z.of_nat n) (z mod 2 ^ (8 * Z.of_nat n))
                     else z mod 2 ^ (8 * Z.of_nat n))) rest.
Proof. unfold decode_int. now rewrite read_uint_app. Qed.

Lemma to_signed_mod (bits z : Z) :
  0 < bits -> - 2 ^ (bits - 1) <= z < 2 ^ (bits - 1) ->
  to_signed bits (z mod 2 ^ bits) = z.
Proof.
  intros Hb Hz. unfold to_signed.
  assert (E : 2 ^ bits = 2 * 2 ^ (bits - 1)).
  { replace bits with (bits - 1 + 1) at 1 by lia. rewrite Z.pow_add_r by lia. lia. }
  destruct (Z_lt_le_dec z 0).
  - replace (z mod 2 ^ bits) with (z + 2 ^ bits).
    + destruct (Z.ltb_spec (z + 2 ^ bits) (2 ^ (bits - 1))); lia.
    + apply Z.mod_unique with (q := -1); lia.
  - rewrite Z.mod_small by lia.
    destruct (Z.ltb_spec z (2 ^ (bits - 1))); lia.
Qed.

(** An [int] written by [EncodeInt] is read back with its value. *)
Lemma decode_EncodeInt (f : nat) (n : Z) (rest : list byte) :
  in_int64 n = true ->
  decode_value (S f) (EncodeInt n ++ rest) = Decoded (VInt (int_kind n) n) rest.
Proof.
  unfold in_int64, MinInt64, MaxInt64. intros H.
  apply andb_true_iff in H as [H1 H2]. apply Z.leb_le in H1, H2.
  unfold EncodeInt, EncodeUint, int_kind.
  destruct (Z.leb_spec 0 n).
  - destruct (Z.leb_spec n 127).
    { cbn [app]. rewrite (decode_value_cons f _ rest n) by (apply Z_of_byte_small; lia).
      split_cmp. reflexivity. }
    destruct (Z.leb_spec n 255).
    { cbn [app]. rewrite (decode_value_cons f _ _ 204) by reflexivity. split_cmp.
      rewrite decode_int_be. change (8 * Z.of_nat 1) with 8. rewrite Z.mod_small by lia. reflexivity. }
    destruct (Z.leb_spec n 65535).
    { cbn [app]. rewrite (decode_value_cons f _ _ 205) by reflexivity. split_cmp.
      rewrite decode_int_be. change (8 * Z.of_nat 2) with 16. rewrite Z.mod_small by lia. reflexivity. }
    destruct (Z.leb_spec n 4294967295).
    { cbn [app]. rewrite (decode_value_cons f _ _ 206) by reflexivity. split_cmp.
      rewrite decode_int_be. change (8 * Z.of_nat 4) with 32. rewrite Z.mod_small by lia. reflexivity. }
    cbn [app]. rewrite (decode_value_cons f _ _ 207) by reflexivity. split_cmp.
    rewrite decode_int_be. change (8 * Z.of_nat 8) with 64. rewrite Z.mod_small by lia. reflexivity.
  - destruct (Z.leb_spec (-32) n).
    { cbn [app]. rewrite (decode_value_cons f _ rest (n + 256)).
      - split_cmp. replace (n + 256 - 256) with n by lia.
        destruct (Z.leb_spec (-128) n); [reflexivity | lia].
      - rewrite Z_of_byte_of_Z. symmetry. apply Z.mod_unique with (q := -1); lia. }
    destruct (Z.leb_spec (-128) n).
    { cbn [app]. rewrite (decode_value_cons f _ _ 208) by reflexivity. split_cmp.
      rewrite decode_int_be. change (8 * Z.of_nat 1) with 8. rewrite to_signed_mod by lia. reflexivity. }
    destruct (Z.leb_spec (-32768) n).
    { cbn [app]. rewrite (decode_value_cons f _ _ 209) by reflexivity. split_cmp.
      rewrite decode_int_be. change (8 * Z.of_nat 2) with 16. rewrite to_signed_mod by lia. reflexivity. }
    destruct (Z.leb_spec (-2147483648) n).
    { cbn [app]. rewrite (decode_value_cons f _ _ 210) by reflexivity. split_cmp.
      rewrite decode_int_be. change (8 * Z.of_nat 4) with 32. rewrite to_signed_mod by lia. reflexivity. }
    cbn [app]. rewrite (decode_value_cons f _ _ 211) by reflexivity. split_cmp.
    rewrite decode_int_be. change (8 * Z.of_nat 8) with 64. rewrite to_signed_mod by lia. reflexivity.
Qed.

Lemma decode_payload_app (mk : list byte -> value) (bs rest : list byte) :
  decode_payload mk (Z.of_nat (length bs)) (bs ++ rest) = Decoded (mk bs) rest.
Proof.
  unfold decode_payload. rewrite Nat2Z.id.
  now rewrite read_n_app.
Qed.

Lemma decode_sized_app (mk : list byte -> value) (n : nat) (bs rest : list byte) :
  Z.of_nat (length bs) < 2 ^ (8 * Z.of_nat n) ->
  decode_sized mk n (be_bytes n (Z.of_nat (length bs)) ++ bs ++ rest)
  = Decoded (mk bs) rest.
Proof.
  intros H. unfold decode_sized.
  rewrite read_uint_app, Z.mod_small by lia.
  apply decode_payload_app.
Qed.

(** A byte slice written by [EncodeBytes] is read back as it was. *)
Lemma decode_EncodeBytes (f : nat) (bs rest : list byte) :
  Z.of_nat (length bs) < 2 ^ 32 ->
  decode_value (S f) (EncodeBytes bs ++ rest) = Decoded (VBytes bs) rest.
Proof.
  intros H. unfold EncodeBytes. rewrite <- app_assoc.
  destruct (Z.ltb_spec (Z.of_nat (length bs)) 256).
  { cbn [app]. rewrite (decode_value_cons f _ _ 196) by reflexivity. split_cmp.
    apply decode_sized_app. change (2 ^ (8 * Z.of_nat 1)) with 256. lia. }
  destruct (Z.ltb_spec (Z.of_nat (length bs)) 65536).
  { cbn [app]. rewrite (decode_value_cons f _ _ 197) by reflexivity. split_cmp.
    apply decode_sized_app. change (2 ^ (8 * Z.of_nat 2)) with 65536. lia. }
  cbn [app]. rewrite (decode_value_cons f _ _ 198) by reflexivity. split_cmp.
  apply decode_sized_app. change (2 ^ (8 * Z.of_nat 4)) with (2 ^ 32). lia.
Qed.

Lemma key_T (rest : list byte) :
  DecodeString (EncodeString "T" ++ rest) = Decoded (VStr "T") rest.
Proof. reflexivity. Qed.

Lemma key_Id (rest : list byte) :
  DecodeString (EncodeString "Id" ++ rest) = Decoded (VStr "Id") rest.
Proof. reflexivity. Qed.

Lemma key_Buf (rest : list byte) :
  DecodeString (EncodeString "Buf" ++ rest) = Decoded (VStr "Buf") rest.
Proof. reflexivity. Qed.

Lemma decode_Marshal (f : nat) (rec : BufRecord) (rest : list byte) :
  encodable rec ->
  decode_value (S (S f)) (Marshal rec ++ rest) = Decoded (record_value rec) rest.
Proof.
  intros (HT & HI & HB). unfold Marshal.
  cbn [app]. rewrite (decode_value_cons (S f) _ _ 131) by reflexivity. split_cmp.
  change (Z.to_nat (131 - 128)) with 3%nat.
  repeat rewrite <- app_assoc.
  cbn [decode_entries].
  rewrite key_T, decode_EncodeInt by assumption.
  rewrite key_Id, decode_EncodeInt by assumption.
  rewrite key_Buf, decode_EncodeBytes by assumption.
  reflexivity.
Qed.

Lemma Marshal_length (rec : BufRecord) : (2 <= length (Marshal rec))%nat.
Proof.
  unfold Marshal. cbn [length]. rewrite length_app.
  change (length (EncodeString "T")) with 2%nat. lia.
Qed.

Lemma DecodeInterface_Marshal (rec : BufRecord) (rest : list byte) :
  encodable rec ->
  DecodeInterface (Marshal rec ++ rest) = Decoded (record_value rec) rest.
Proof.
  intros H. unfold DecodeInterface.
  pose proof (Marshal_length rec) as L.
  rewrite length_app.
  destruct (length (Marshal rec)) as [|[|n]] eqn:E; try lia.
  cbn [Nat.add]. now apply decode_Marshal.
Qed.

(** ** Round trip of the record stream *)

Lemma Sscanf_Sprintf (z : Z) : in_int64 z = true -> Sscanf_d (Sprintf_v z) = z.
Proof.
  intros H. unfold Sscanf_d, Sprintf_v.
  rewrite NilEmpty.isi, DecimalZ.of_to, H. reflexivity.
Qed.

Lemma DurationOf_int (k : ikind) (z : Z) :
  in_int64 z = true -> DurationOf (VInt k z) = Some z.
Proof. intros H. cbn. now rewrite Sscanf_Sprintf. Qed.

Lemma storable_encodable (rec : BufRecord) : storable rec -> encodable rec.
Proof.
  intros (HT & HI & HB). repeat split; try assumption.
  unfold in_int64, MinInt64, MaxInt64.
  apply andb_true_iff. split; apply Z.leb_le; lia.
Qed.

Lemma int_kind_int8 (n : Z) : -128 <= n <= 127 -> int_kind n = Int8.
Proof. intros H. unfold int_kind. split_cmp; reflexivity. Qed.

Lemma assert_fields_record (rec : BufRecord) :
  -128 <= Id rec <= 127 ->
  assert_fields (record_value rec)
  = Some (VInt (int_kind (T rec)) (T rec), Id rec, Buf rec).
Proof.
  intros H. unfold record_value, assert_fields.
  cbn [map_get String.eqb Ascii.eqb Bool.eqb].
  now rewrite (int_kind_int8 _ H).
Qed.

Lemma decode_record_value (rec : BufRecord) :
  storable rec -> decode_record (record_value rec) = Some rec.
Proof.
  intros (HT & HI & HB). unfold decode_record.
  rewrite assert_fields_record, DurationOf_int by assumption.
  now destruct rec.
Qed.

Lemma decode_records_encode (recs : list BufRecord) (tail : list byte) :
  Forall storable recs ->
  DecodeInterface tail = DecodeErr ->
  forall fuel, (length recs < fuel)%nat ->
  decode_records fuel (encode_stream recs ++ tail) = Some recs.
Proof.
  intros Hs Ht. induction Hs as [|rec recs Hr _ IH]; intros fuel Hf.
  - destruct fuel; [lia|]. cbn [encode_stream flat_map app decode_records].
    now rewrite Ht.
  - destruct fuel; [cbn in Hf; lia|].
    cbn [encode_stream flat_map decode_records]. rewrite <- app_assoc.
    rewrite DecodeInterface_Marshal by now apply storable_encodable.
    rewrite decode_record_value by assumption.
    fold (encode_stream recs). rewrite IH by (cbn in Hf; lia). reflexivity.
Qed.

Lemma encode_stream_length (recs : list BufRecord) :
  (length recs <= length (encode_stream recs))%nat.
Proof.
  induction recs as [|rec recs IH]; [cbn; lia|].
  cbn [encode_stream flat_map length]. fold (encode_stream recs).
  rewrite length_app. pose proof (Marshal_length rec). lia.
Qed.

(** C1. Encoding a sequence of records one by one and decoding the result
    gives the same sequence back: the same ids, elapsed times and payload
    bytes.  It holds for every sequence of records whose elapsed time is an
    [int64], whose id is in the range of [int8] (1, 2 and 127 are) and
    whose payload is shorter than 2^32 bytes; the sequences that end in
    one exit-status record are among them. *)
Theorem roundtrip (recs : list BufRecord) :
  Forall storable recs ->
  decode_stream (encode_stream recs) = Some recs.
Proof.
  intros H. unfold decode_stream.
  rewrite <- (app_nil_r (encode_stream recs)) at 2.
  apply decode_records_encode; [assumption | reflexivity |].
  pose proof (encode_stream_length recs). lia.
Qed.

(** ** The recursion bounds are never met *)

Lemma shrinks_err (k : nat) (bs : list byte) : shrinks k bs DecodeErr.
Proof. split; [discriminate | intros ? ? [=]]. Qed.

Lemma shrinks_unsupported (k : nat) (bs : list byte) : shrinks k bs Unsupported.
Proof. split; [discriminate | intros ? ? [=]]. Qed.

Lemma shrinks_decoded (k : nat) (bs rest : list byte) (v : value) :
  (length rest + k <= length bs)%nat -> shrinks k bs (Decoded v rest).
Proof. intros H. split; [discriminate | intros ? ? [= <- <-]; exact H]. Qed.

Lemma shrinks_cons (b : byte) (bs : list byte) (r : dres) :
  shrinks 0 bs r -> shrinks 1 (b :: bs) r.
Proof.
  intros [H1 H2]. split; [exact H1|].
  intros v rest E. specialize (H2 v rest E). cbn [length]. lia.
Qed.

Lemma read_n_length (n : nat) (bs hd rest : list byte) :
  read_n n bs = Some (hd, rest) -> (length rest <= length bs)%nat.
Proof.
  unfold read_n. destruct (n <=? length bs)%nat; [|discriminate].
  intros [= _ <-]. rewrite length_skipn. lia.
Qed.

Lemma shrinks_payload (mk : list byte -> value) (l : Z) (bs : list byte) :
  shrinks 0 bs (decode_payload mk l bs).
Proof.
  unfold decode_payload. destruct (read_n (Z.to_nat l) bs) as [[hd rest]|] eqn:E.
  - apply shrinks_decoded. apply read_n_length in E. lia.
  - apply shrinks_err.
Qed.

Lemma read_uint_length (n : nat) (bs rest : list byte) (u : Z) :
  read_uint n bs = Some (u, rest) -> (length rest <= length bs)%nat.
Proof.
  unfold read_uint. destruct (read_n n bs) as [[hd r]|] eqn:E; [|discriminate].
  intros [= _ <-]. now apply read_n_length in E.
Qed.

Lemma shrinks_sized (mk : list byte -> value) (n : nat) (bs : list byte) :
  shrinks 0 bs (decode_sized mk n bs).
Proof.
  unfold decode_sized. destruct (read_uint n bs) as [[l rest]|] eqn:E.
  - apply read_uint_length in E.
    destruct (shrinks_payload mk l rest) as [H1 H2]. split; [exact H1|].
    intros v r Hd. specialize (H2 v r Hd). lia.
  - apply shrinks_err.
Qed.

Lemma shrinks_int (k : ikind) (n : nat) (sg : bool) (bs : list byte) :
  shrinks 0 bs (decode_int k n sg bs).
Proof.
  unfold decode_int. destruct (read_uint n bs) as [[u rest]|] eqn:E.
  - apply shrinks_decoded. apply read_uint_length in E. lia.
  - apply shrinks_err.
Qed.

Lemma shrinks_DecodeString (bs : list byte) : shrinks 1 bs (DecodeString bs).
Proof.
  destruct bs as [|b rest]; [apply shrinks_err|].
  unfold DecodeString.
  repeat match goal with
  | |- context [if ?c then _ else _] => destruct c
  end;
  first [apply shrinks_cons, shrinks_payload | apply shrinks_cons, shrinks_sized
        | apply shrinks_unsupported].
Qed.

Lemma shrinks_entries (dec : list byte -> dres) (n : nat) :
  forall (acc : list (string * value)) (bs : list byte),
  (forall bs', (length bs' < length bs)%nat -> shrinks 1 bs' (dec bs')) ->
  shrinks 0 bs (decode_entries dec n acc bs).
Proof.
  induction n as [|k IH]; intros acc bs Hdec.
  - cbn. apply shrinks_decoded. lia.
  - cbn [decode_entries].
    destruct (shrinks_DecodeString bs) as [K1 K2].
    destruct (DecodeString bs) as [kv rest| | |] eqn:E;
      [|apply shrinks_err|apply shrinks_unsupported|congruence].
    specialize (K2 kv rest eq_refl).
    destruct kv; try apply shrinks_unsupported.
    assert (Hr : (length rest < length bs)%nat) by lia.
    destruct (Hdec rest Hr) as [D1 D2].
    destruct (dec rest) as [v rest'| | |] eqn:E';
      [|apply shrinks_err|apply shrinks_unsupported|congruence].
    specialize (D2 v rest' eq_refl).
    destruct (IH ((s, v) :: acc) rest') as [I1 I2].
    { intros bs' Hb. apply Hdec. lia. }
    split; [exact I1|]. intros v' r Hd. specialize (I2 v' r Hd). lia.
Qed.

Lemma shrinks_map (dec : list byte -> dres) (n : nat) (bs : list byte) :
  (forall bs', (length bs' < length bs)%nat -> shrinks 1 bs' (dec bs')) ->
  shrinks 0 bs (decode_map dec n bs).
Proof.
  intros Hdec. unfold decode_map.
  destruct (read_uint n bs) as [[l rest]|] eqn:E; [|apply shrinks_err].
  apply read_uint_length in E.
  destruct (shrinks_entries dec (Z.to_nat l) [] rest) as [H1 H2].
  { intros bs' Hb. apply Hdec. lia. }
  split; [exact H1|]. intros v r Hd. specialize (H2 v r Hd). lia.
Qed.

Lemma shrinks_value (fuel : nat) :
  forall bs : list byte, (length bs < fuel)%nat -> shrinks 1 bs (decode_value fuel bs).
Proof.
  induction fuel as [|f IH]; intros bs Hl; [lia|].
  destruct bs as [|b rest]; [apply shrinks_err|].
  cbn [length] in Hl.
  assert (Hsub : forall bs', (length bs' < length rest)%nat ->
                  shrinks 1 bs' (decode_value f bs')).
  { intros bs' Hb. apply IH. lia. }
  rewrite (decode_value_cons f b rest (Z_of_byte b) eq_refl).
  repeat match goal with
  | |- context [if ?c then _ else _] => destruct c
  end;
  first [ apply shrinks_decoded; cbn [length]; lia
        | apply shrinks_err | apply shrinks_unsupported
        | apply shrinks_cons, shrinks_payload
        | apply shrinks_cons, shrinks_sized
        | apply shrinks_cons, shrinks_int
        | apply shrinks_cons, shrinks_entries, Hsub
        | apply shrinks_cons, shrinks_map, Hsub ].
Qed.

(** [DecodeInterface] is total: it never stops for lack of fuel, and a
    decoded value uses at least one byte. *)
Lemma DecodeInterface_fuel (bs : list byte) : shrinks 1 bs (DecodeInterface bs).
Proof. apply shrinks_value. lia. Qed.

Lemma replay_loop_total (fuel : nat) :
  forall (delay : bool) (exitCode : Z) (bs : list byte),
  (length bs < fuel)%nat ->
  snd (replay_loop fuel delay exitCode bs) <> Blocked.
Proof.
  induction fuel as [|f IH]; intros delay exitCode bs Hl; [lia|].
  cbn [replay_loop].
  destruct (DecodeInterface_fuel bs) as [H1 H2].
  destruct (DecodeInterface bs) as [i rest| | |] eqn:E; try (cbn; congruence).
  specialize (H2 i rest eq_refl).
  destruct (replay_step delay exitCode i) as [evs [ec'|o]] eqn:Es.
  - specialize (IH delay ec' rest).
    destruct (replay_loop f delay ec' rest) as [evs' o']. cbn in *. apply IH. lia.
  - cbn. unfold replay_step in Es.
    destruct (assert_fields i) as [[[tv id0] buf]|]; [|now inversion Es].
    destruct (if delay then _ else _); [|now inversion Es].
    repeat match type of Es with
    | context [if ?c then _ else _] => destruct c
    end; try discriminate.
    destruct buf; now inversion Es.
Qed.

(** The replay branch ends: it never waits for ever. *)
Lemma replay_total (delay opened : bool) (f : File) :
  snd (replay delay opened f) <> Blocked.
Proof.
  unfold replay. destruct opened; [|cbn; congruence].
  destruct (data f); [cbn; congruence|].
  apply replay_loop_total. lia.
Qed.

(** ** Replay of an encoded stream *)

Lemma replay_step_record (delay : bool) (exitCode : Z) (rec : BufRecord) :
  playable rec ->
  replay_step delay exitCode (record_value rec)
  = (emit delay rec, inl (exit_after exitCode rec)).
Proof.
  intros [(HT & HI & HB) Hne]. unfold replay_step, emit, exit_after.
  rewrite assert_fields_record, DurationOf_int by assumption.
  destruct (Z.eqb_spec (Id rec) 1) as [E1|N1].
  { rewrite E1. destruct delay; reflexivity. }
  destruct (Z.eqb_spec (Id rec) 2) as [E2|N2].
  { rewrite E2. destruct delay; reflexivity. }
  destruct (Z.eqb_spec (Id rec) 127) as [E3|N3].
  - destruct (Buf rec) as [|b bs] eqn:EB; [now elim (Hne E3)|].
    destruct delay; cbn; now rewrite ?app_nil_r.
  - destruct delay; cbn; reflexivity.
Qed.

Lemma replay_loop_encoded (delay : bool) (recs : list BufRecord) (tail : list byte) :
  Forall playable recs ->
  DecodeInterface tail = DecodeErr ->
  forall (fuel : nat) (exitCode : Z), (length recs < fuel)%nat ->
  replay_loop fuel delay exitCode (encode_stream recs ++ tail)
  = (flat_map (emit delay) recs, Exit (fold_left exit_after recs exitCode)).
Proof.
  intros Hp Ht. induction Hp as [|rec recs Hr _ IH]; intros fuel exitCode Hf.
  - destruct fuel; [lia|]. cbn [encode_stream flat_map app replay_loop fold_left].
    now rewrite Ht.
  - destruct fuel; [cbn in Hf; lia|].
    cbn [encode_stream flat_map replay_loop fold_left]. rewrite <- app_assoc.
    rewrite DecodeInterface_Marshal by (apply storable_encodable, Hr).
    rewrite replay_step_record by assumption.
    fold (encode_stream recs). rewrite IH by (cbn in Hf; lia). reflexivity.
Qed.

Lemma replay_encoded (delay : bool) (mtime : Z) (recs : list BufRecord)
    (tail : list byte) :
  Forall playable recs ->
  DecodeInterface tail = DecodeErr ->
  replay delay true (mkFile mtime (Gzip (encode_stream recs ++ tail)))
  = (flat_map (emit delay) recs, Exit (last_exit recs)).
Proof.
  intros Hp Ht. unfold replay. cbn [data].
  apply replay_loop_encoded; try assumption.
  rewrite length_app. pose proof (encode_stream_length recs). lia.
Qed.

(** ** The capture path *)

Lemma channel_eq (env : Env) :
  channel env
  = delivered_records env
    ++ exit_record (exitCode_of (Wait (child env))) :: late_records env.
Proof.
  unfold channel, delivered_records, late_records.
  destruct (stamp _ _ (delivered_of (child env))) as [before [out err]].
  destruct (stamp out err (late_of (child env))) as [after st].
  reflexivity.
Qed.

Lemma stamp_spec (cs : list chunk) :
  forall out err : Timestamped,
  id (fst (snd (stamp out err cs))) = id out
  /\ id (snd (snd (stamp out err cs))) = id err
  /\ map (fun r => (Id r, Buf r)) (fst (stamp out err cs))
     = map (fun c => (match src c with LegOut => id out | LegErr => id err end,
                      bytes c)) cs.
Proof.
  induction cs as [|c cs IH]; intros out err; [cbn; auto|].
  cbn [stamp]. destruct (src c) eqn:Es; unfold Write.
  - specialize (IH (mkTimestamped (at_time c) (id out)) err).
    destruct (stamp _ err cs) as [recs [o e]].
    cbn [fst snd id map Id Buf] in *. rewrite Es.
    destruct IH as (I1 & I2 & I3). now rewrite I3.
  - specialize (IH out (mkTimestamped (at_time c) (id err))).
    destruct (stamp out _ cs) as [recs [o e]].
    cbn [fst snd id map Id Buf] in *. rewrite Es.
    destruct IH as (I1 & I2 & I3). now rewrite I3.
Qed.

(** The records of the two legs carry the ids 1 and 2 and the bytes of the
    writes, in the order of the writes. *)
Lemma delivered_records_spec (env : Env) :
  map (fun r => (Id r, Buf r)) (delivered_records env)
  = map (fun c => (leg_id (src c), bytes c)) (delivered_of (child env)).
Proof.
  unfold delivered_records.
  destruct (stamp_spec (delivered_of (child env))
              (OpenTS 1 (openOut env)) (OpenTS 2 (openErr env))) as (_ & _ & H).
  rewrite H. apply map_ext. intros c. now destruct (src c).
Qed.

Lemma delivered_records_tags (env : Env) :
  Forall (fun r => Id r = 1 \/ Id r = 2) (delivered_records env).
Proof.
  pose proof (delivered_records_spec env) as H.
  revert H. generalize (delivered_of (child env)). generalize (delivered_records env).
  induction l as [|r l IH]; intros cs H; [constructor|].
  destruct cs as [|c cs]; [discriminate|]. cbn in H. injection H as H1 _ H2.
  constructor; [|now apply (IH cs)].
  rewrite H1. destruct (src c); cbn; auto.
Qed.

(** [plex] writes every record up to and including the first with id 127,
    signals, returns, and leaves the rest of the channel alone. *)
Lemma plex_until_exit (before after : list BufRecord) (last : BufRecord) :
  Forall (fun r => Id r <> 127) before ->
  Id last = 127 ->
  plex Marshal_ok (before ++ last :: after)
  = (map (fun r => FWrite (Marshal r)) before ++ [FWrite (Marshal last); Finished],
     true, after).
Proof.
  intros Hb Hl. induction Hb as [|r before Hr _ IH].
  - cbn. now rewrite Hl.
  - cbn [app plex Marshal_ok map]. rewrite IH.
    destruct (Z.eqb_spec (Id r) 127); [contradiction | reflexivity].
Qed.

Lemma written_writes (recs : list BufRecord) (last : BufRecord) :
  written (map (fun r => FWrite (Marshal r)) recs ++ [FWrite (Marshal last); Finished])
  = encode_stream (recs ++ [last]).
Proof.
  induction recs as [|r recs IH].
  - cbn. reflexivity.
  - cbn [map app written encode_stream flat_map]. rewrite IH. reflexivity.
Qed.

Lemma plex_channel (env : Env) :
  plex Marshal_ok (channel env)
  = (map (fun r => FWrite (Marshal r)) (delivered_records env)
       ++ [FWrite (Marshal (exit_record (exitCode_of (Wait (child env))))); Finished],
     true, late_records env).
Proof.
  rewrite channel_eq. apply plex_until_exit; [|reflexivity].
  eapply List.Forall_impl; [|apply delivered_records_tags].
  intros r [H|H]; rewrite H; discriminate.
Qed.

(** The capture branch written out: [plex] always returns, so the session
    always leaves with the exit code. *)
Lemma capture_eq (location : string) (fl : Flags) (env : Env) (fs : gmap string File) :
  capture location fl env fs
  = mkResult
      (if removes (keepNeg fl) (child env) then
         delete location (if created env then <[location := mkFile (now env) NotGzip]> fs else fs)
       else if created env then
         <[location := mkFile (closed_at env) (Gzip (encode_stream (captured env)))]> fs
       else fs)
      (start_message (child env))
      (map (fun r => FWrite (Marshal r)) (delivered_records env)
         ++ [FWrite (Marshal (exit_record (exitCode_of (Wait (child env))))); Finished])
      (is_started (child env))
      (Exit (exitCode_of (Wait (child env)))).
Proof.
  unfold capture. rewrite plex_channel. f_equal.
  rewrite written_writes. fold (captured env).
  destruct (removes (keepNeg fl) (child env)), (created env); cbn [andb negb]; try reflexivity.
  apply insert_insert_eq.
Qed.

Lemma last_cons_default {A : Type} (x d : A) (l : list A) :
  List.last (x :: l) d = List.last l x.
Proof.
  revert x d. induction l as [|y l IH]; intros x d; [reflexivity|].
  change (List.last (x :: y :: l) d) with (List.last (y :: l) d).
  now rewrite (IH y d), (IH y x).
Qed.

Lemma fold_exit_after (recs : list BufRecord) (exitCode : Z) :
  fold_left exit_after recs exitCode = List.last (exit_bytes recs) exitCode.
Proof.
  revert exitCode. induction recs as [|r recs IH]; intros exitCode; [reflexivity|].
  cbn [fold_left exit_bytes flat_map]. fold (exit_bytes recs).
  rewrite IH. unfold exit_after.
  destruct (Id r =? 127); [|reflexivity].
  destruct (Buf r) as [|b bs]; [reflexivity|].
  cbn [app]. now rewrite last_cons_default.
Qed.

Lemma last_exit_eq (recs : list BufRecord) :
  last_exit recs = List.last (exit_bytes recs) 0.
Proof. apply fold_exit_after. Qed.

Lemma stdout_of_app (a b : list event) : stdout_of (a ++ b) = stdout_of a ++ stdout_of b.
Proof.
  induction a as [|e a IH]; [reflexivity|].
  destruct e; cbn; rewrite IH; try reflexivity. now rewrite app_assoc.
Qed.

Lemma stderr_of_app (a b : list event) : stderr_of (a ++ b) = stderr_of a ++ stderr_of b.
Proof.
  induction a as [|e a IH]; [reflexivity|].
  destruct e; cbn; rewrite IH; try reflexivity. now rewrite app_assoc.
Qed.

Lemma stdout_of_emit (delay : bool) (recs : list BufRecord) :
  stdout_of (flat_map (emit delay) recs) = payloads 1 recs.
Proof.
  induction recs as [|r recs IH]; [reflexivity|].
  cbn [flat_map payloads]. fold (payloads 1 recs).
  rewrite stdout_of_app, IH. f_equal.
  unfold emit. destruct delay, (Z.eqb_spec (Id r) 1) as [E|N]; cbn;
    rewrite ?app_nil_r; try reflexivity;
    destruct (Id r =? 2); reflexivity.
Qed.

Lemma stderr_of_emit (delay : bool) (recs : list BufRecord) :
  stderr_of (flat_map (emit delay) recs) = payloads 2 recs.
Proof.
  induction recs as [|r recs IH]; [reflexivity|].
  cbn [flat_map payloads]. fold (payloads 2 recs).
  rewrite stderr_of_app, IH. f_equal.
  unfold emit. destruct delay, (Z.eqb_spec (Id r) 1) as [E|N]; cbn;
    rewrite ?app_nil_r; try (rewrite E; reflexivity);
    destruct (Id r =? 2); cbn; rewrite ?app_nil_r; reflexivity.
Qed.

(** * The claims *)

Lemma sample_records_playable : Forall playable sample_records.
Proof.
  unfold sample_records.
  repeat constructor; cbn; try lia; try discriminate.
Qed.

Lemma roundtrip_witness :
  Forall storable sample_records
  /\ decode_stream (encode_stream sample_records) = Some sample_records.
Proof.
  assert (H : Forall storable sample_records).
  { unfold sample_records. repeat constructor; cbn; lia. }
  split; [exact H | exact (roundtrip sample_records H)].
Defined.

(** C2. What a capture writes to the entry: the records of the writes on
    the two legs, with ids 1 and 2 and in the order the channel received
    them, then the one record with id 127, then the signal on [finished];
    [plex] returns there, and the records that reach the channel later are
    never received. *)
Theorem capture_writes_sequence (location : string) (fl : Flags) (env : Env)
    (fs : gmap string File) :
  sink (capture location fl env fs)
  = map (fun r => FWrite (Marshal r)) (captured env) ++ [Finished]
  /\ written (sink (capture location fl env fs)) = encode_stream (captured env)
  /\ captured env
     = delivered_records env ++ [exit_record (exitCode_of (Wait (child env)))]
  /\ Forall (fun r => Id r = StdOutTag \/ Id r = StdErrTag) (delivered_records env)
  /\ map (fun r => (Id r, Buf r)) (delivered_records env)
     = map (fun c => (leg_id (src c), bytes c)) (delivered_of (child env))
  /\ Id (exit_record (exitCode_of (Wait (child env)))) = ExitTag
  /\ plex Marshal_ok (channel env)
     = (sink (capture location fl env fs), true, late_records env).
Proof.
  rewrite capture_eq. cbn [sink].
  repeat split.
  - unfold captured. rewrite map_app, <- app_assoc. reflexivity.
  - apply written_writes.
  - apply delivered_records_tags.
  - apply delivered_records_spec.
  - apply plex_channel.
Qed.

(** C3. Once the command has exited, the exit code is 0 when [Wait]
    returned nil and the exit status of the wait status when it returned an
    exit error; the record sent on the channel has elapsed time 0, id 127
    and the exit code as its one byte; the session leaves with that exit
    code after [plex] has written the record and signalled [finished]. *)
Theorem exit_status_record (location : string) (fl : Flags) (fs : gmap string File)
    (t0 opened_at_out opened_at_err closed : Z) (op cr : bool)
    (delivered late : list chunk) (wait : WaitResult) :
  let env := mkEnv t0 op cr opened_at_out opened_at_err
               (Started delivered late wait) closed in
  let exitCode := exitCode_of wait in
  exitCode_of WaitNil = 0
  /\ (forall status, exitCode_of (WaitExitError (Some status)) = status)
  /\ channel env
     = delivered_records env ++ mkBufRecord 0 127 [byte_of_Z exitCode] :: late_records env
  /\ Z_of_byte (byte_of_Z exitCode) = exitCode mod 256
  /\ sink (capture location fl env fs)
     = map (fun r => FWrite (Marshal r)) (delivered_records env)
       ++ [FWrite (Marshal (mkBufRecord 0 127 [byte_of_Z exitCode])); Finished]
  /\ ending (capture location fl env fs) = Exit exitCode.
Proof.
  intros env exitCode. rewrite capture_eq. cbn [sink ending].
  repeat split.
  - apply (channel_eq env).
  - apply Z_of_byte_of_Z.
Qed.

(** C4, as the program has it.  Replaying an entry that holds encoded
    records emits, record by record and in order, the payload of a record
    with id 1 on standard output and that of a record with id 2 on standard
    error (after the sleep when pacing is on); a record with id 127 sets the
    exit code to its first payload byte and the loop goes on.  The loop
    ends only at the error of the decoder: the exit code is that of the
    last record with id 127, and records after one are emitted like any
    other. *)
Theorem replay_plays_every_record (delay : bool) (mtime : Z) (recs : list BufRecord) :
  Forall playable recs ->
  let r := replay delay true (mkFile mtime (Gzip (encode_stream recs))) in
  fst r = flat_map (emit delay) recs
  /\ stdout_of (fst r) = payloads StdOutTag recs
  /\ stderr_of (fst r) = payloads StdErrTag recs
  /\ snd r = Exit (List.last (exit_bytes recs) 0).
Proof.
  intros Hp r. subst r.
  rewrite <- (app_nil_r (encode_stream recs)).
  rewrite (replay_encoded delay mtime recs [] Hp eq_refl). cbn [fst snd].
  rewrite stdout_of_emit, stderr_of_emit, last_exit_eq. auto.
Qed.

Lemma replay_plays_every_record_witness :
  Forall playable sample_records
  /\ fst (replay true true (mkFile 0 (Gzip (encode_stream sample_records))))
     = flat_map (emit true) sample_records
  /\ stdout_of (fst (replay true true (mkFile 0 (Gzip (encode_stream sample_records)))))
     = payloads StdOutTag sample_records
  /\ stderr_of (fst (replay true true (mkFile 0 (Gzip (encode_stream sample_records)))))
     = payloads StdErrTag sample_records
  /\ snd (replay true true (mkFile 0 (Gzip (encode_stream sample_records))))
     = Exit (List.last (exit_bytes sample_records) 0).
Proof.
  split; [exact sample_records_playable|].
  exact (replay_plays_every_record true 0 sample_records sample_records_playable).
Defined.

(** C4 as stated fails: the loop does not stop at the exit-status record.
    A record that follows it is still decoded and written to standard
    output, and a second exit-status record replaces the code of the
    first. *)
Lemma replay_goes_on_after_exit :
  replay false true
    (mkFile 0 (Gzip (encode_stream [exit_record 3; mkBufRecord 0 1 ["x"%byte]])))
  = ([Stdout ["x"%byte]], Exit 3)
  /\ replay false true
       (mkFile 0 (Gzip (encode_stream [exit_record 3; exit_record 4])))
     = ([], Exit 4).
Proof. split; vm_compute; reflexivity. Qed.



(** ** Lookup *)

(** C6. The lookup finds a fresh entry exactly when the entry is there and
    the ttl is -1 or the age in whole seconds is at most the ttl.  An
    entry as old as the ttl is fresh; one a second older is stale, the ttl
    not being -1. *)
Theorem lookup_fresh (location : string) (ttl now : Z) (fs : gmap string File) :
  (forall f, lookup_entry location ttl now fs = Some f
             <-> fs !! location = Some f /\ (ttl = -1 \/ age now f <= ttl))
  /\ (forall f, age now f = ttl -> is_fresh ttl now f = true)
  /\ (forall f, ttl <> -1 -> age now f = ttl + 1 -> is_fresh ttl now f = false).
Proof.
  assert (E : forall f, is_fresh ttl now f = true <-> ttl = -1 \/ age now f <= ttl).
  { intros f. unfold is_fresh. fold (age now f).
    rewrite orb_true_iff, Z.eqb_eq, Z.leb_le. reflexivity. }
  repeat split.
  - unfold lookup_entry in H. destruct (fs !! location) as [stat|]; [|discriminate].
    destruct (is_fresh ttl now stat); congruence.
  - unfold lookup_entry in H. destruct (fs !! location) as [stat|]; [|discriminate].
    destruct (is_fresh ttl now stat) eqn:Ef; [|discriminate].
    injection H as <-. now apply E.
  - intros [Hl Hf]. unfold lookup_entry. rewrite Hl.
    apply E in Hf. now rewrite Hf.
  - intros f Ha. apply E. right. lia.
  - intros f Hn Ha. destruct (is_fresh ttl now f) eqn:Ef; [|reflexivity].
    apply E in Ef. lia.
Qed.

(** ** What a capture leaves behind *)

Lemma quot_Millisecond_int64 (d : Z) :
  MinInt64 <= d <= MaxInt64 ->
  in_int64 (Z.quot d Millisecond) = true.
Proof.
  unfold in_int64, MinInt64, MaxInt64, Millisecond. intros H.
  apply andb_true_iff. split; apply Z.leb_le;
    Z.to_euclidean_division_equations; lia.
Qed.

Lemma time_Sub_int64 (a b : Z) : MinInt64 <= time_Sub a b <= MaxInt64.
Proof.
  unfold time_Sub, MinInt64, MaxInt64.
  destruct (Z.ltb_spec (a - b) (- 2 ^ 63)); [lia|].
  destruct (Z.ltb_spec (2 ^ 63 - 1) (a - b)); lia.
Qed.

Lemma Write_playable (ts : Timestamped) (tn : Z) (d : list byte) :
  id ts = 1 \/ id ts = 2 ->
  Z.of_nat (length d) < 2 ^ 32 ->
  playable (fst (Write ts tn d)) /\ id (snd (Write ts tn d)) = id ts.
Proof.
  intros Hid Hd. unfold Write. cbn [fst snd id]. split; [|reflexivity].
  split.
  - repeat split; cbn [T Id Buf]; try lia.
    apply quot_Millisecond_int64, time_Sub_int64.
  - cbn [Id]. lia.
Qed.

Lemma stamp_playable (cs : list chunk) :
  Forall small cs ->
  forall out err : Timestamped,
  id out = 1 \/ id out = 2 -> id err = 1 \/ id err = 2 ->
  Forall playable (fst (stamp out err cs)).
Proof.
  induction 1 as [|c cs Hc _ IH]; intros out err Ho He; [constructor|].
  cbn [stamp]. destruct (src c).
  - destruct (Write_playable out (at_time c) (bytes c) Ho Hc) as [P I].
    destruct (Write out (at_time c) (bytes c)) as [rec out'] eqn:EW.
    specialize (IH out' err). destruct (stamp out' err cs) as [recs st].
    cbn [fst snd] in *. constructor; [exact P|]. apply IH; [now rewrite I | exact He].
  - destruct (Write_playable err (at_time c) (bytes c) He Hc) as [P I].
    destruct (Write err (at_time c) (bytes c)) as [rec err'] eqn:EW.
    specialize (IH out err'). destruct (stamp out err' cs) as [recs st].
    cbn [fst snd] in *. constructor; [exact P|]. apply IH; [exact Ho | now rewrite I].
Qed.

Lemma exit_record_playable (exitCode : Z) : playable (exit_record exitCode).
Proof.
  split; [|discriminate].
  repeat split; cbn; lia.
Qed.

Lemma captured_playable (env : Env) :
  Forall small (delivered_of (child env)) -> Forall playable (captured env).
Proof.
  intros H. unfold captured. apply Forall_app. split.
  - unfold delivered_records. apply stamp_playable; cbn; auto.
  - constructor; [apply exit_record_playable | constructor].
Qed.

Lemma exit_bytes_app (a b : list BufRecord) :
  exit_bytes (a ++ b) = exit_bytes a ++ exit_bytes b.
Proof. unfold exit_bytes. apply flat_map_app. Qed.

Lemma exit_bytes_none (recs : list BufRecord) :
  Forall (fun r => Id r = 1 \/ Id r = 2) recs -> exit_bytes recs = [].
Proof.
  induction 1 as [|r recs Hr _ IH]; [reflexivity|].
  cbn [exit_bytes flat_map]. fold (exit_bytes recs). rewrite IH.
  destruct Hr as [E|E]; rewrite E; reflexivity.
Qed.

(** The exit code that a replay of a captured sequence ends with. *)
Lemma captured_exit (env : Env) :
  List.last (exit_bytes (captured env)) 0
  = exitCode_of (Wait (child env)) mod 256.
Proof.
  unfold captured. rewrite exit_bytes_app.
  rewrite (exit_bytes_none _ (delivered_records_tags env)).
  cbn. apply Z_of_byte_of_Z.
Qed.

(** A later run that finds the entry of a capture fresh and can open it
    replays the captured sequence and does not start its command. *)
Lemma run_replays_captured (location : string) (fl : Flags) (env2 env : Env)
    (mtime : Z) (fs : gmap string File) :
  Forall small (delivered_of (child env)) ->
  fs !! location = Some (mkFile mtime (Gzip (encode_stream (captured env)))) ->
  is_fresh (ttl fl) (now env2) (mkFile mtime (Gzip (encode_stream (captured env)))) = true ->
  opened env2 = true ->
  run location fl env2 fs
  = mkResult fs (flat_map (emit (delay fl)) (captured env)) [] false
      (Exit (exitCode_of (Wait (child env)) mod 256)).
Proof.
  intros Hs Hl Hf Ho. unfold run, lookup_entry. rewrite Hl, Hf, Ho.
  rewrite <- (app_nil_r (encode_stream (captured env))).
  rewrite (replay_encoded (delay fl) mtime (captured env) []
             (captured_playable env Hs) eq_refl).
  now rewrite last_exit_eq, captured_exit.
Qed.

(** C7. A capture whose command exits with a code from 1 to 255: without
    the flag for negative results the entry is removed and none is left;
    with the flag the entry stays with the captured sequence, and a later
    run that finds it fresh replays it and leaves with the same code,
    without starting the command. *)
Theorem negative_results (location : string) (fl : Flags) (fs : gmap string File)
    (t0 out_at err_at closed : Z) (op : bool)
    (delivered late : list chunk) (code : Z) :
  1 <= code <= 255 ->
  Forall small delivered ->
  let env := mkEnv t0 op true out_at err_at
               (Started delivered late (WaitExitError (Some code))) closed in
  let r := capture location fl env fs in
  ending r = Exit code
  /\ (keepNeg fl = false -> files r !! location = None)
  /\ (keepNeg fl = true ->
      files r !! location = Some (mkFile closed (Gzip (encode_stream (captured env))))
      /\ forall (fl2 : Flags) (env2 : Env),
           opened env2 = true ->
           is_fresh (ttl fl2) (now env2)
             (mkFile closed (Gzip (encode_stream (captured env)))) = true ->
           ending (run location fl2 env2 (files r)) = Exit code
           /\ started (run location fl2 env2 (files r)) = false).
Proof.
  intros Hc Hs env r. subst r. rewrite capture_eq.
  cbn [files ending]. subst env. cbn [child created Wait exitCode_of removes closed_at].
  split; [reflexivity|]. split.
  - intros ->. cbn [negb]. apply lookup_delete_eq.
  - intros ->. cbn [negb].
    assert (Hl : forall m : File,
              <[location := m]> fs !! location = Some m)
      by (intros m; apply lookup_insert_eq).
    split; [apply Hl|].
    intros fl2 env2 Ho Hf.
    erewrite run_replays_captured; [| | apply Hl | exact Hf | exact Ho].
    + cbn [ending started Wait child exitCode_of].
      rewrite Z.mod_small by lia. auto.
    + exact Hs.
Qed.

Lemma negative_results_witness :
  1 <= 3 <= 255
  /\ Forall small [mkChunk LegErr 2000000 ["n"%byte; "o"%byte]]
  /\ ending (capture "k.ts" (mkFlags (-1) false true)
               (mkEnv 0 true true 0 0 failing_child 9) ∅) = Exit 3
  /\ ending (run "k.ts" (mkFlags (-1) false false) second_env
               (files (capture "k.ts" (mkFlags (-1) false true)
                         (mkEnv 0 true true 0 0 failing_child 9) ∅))) = Exit 3
  /\ files (capture "k.ts" (mkFlags (-1) false false)
              (mkEnv 0 true true 0 0 failing_child 9) ∅) !! "k.ts"%string = None.
Proof.
  assert (H1 : 1 <= 3 <= 255) by lia.
  assert (H2 : Forall small [mkChunk LegErr 2000000 ["n"%byte; "o"%byte]]).
  { repeat constructor. }
  split; [exact H1|]. split; [exact H2|].
  destruct (negative_results "k.ts" (mkFlags (-1) false true) ∅
              0 0 0 9 true _ [] 3 H1 H2) as (E & _ & K).
  destruct (K eq_refl) as (_ & R).
  destruct (R (mkFlags (-1) false false) second_env eq_refl eq_refl) as (R1 & _).
  split; [exact E|]. split; [exact R1|].
  exact (proj1 (proj2 (negative_results "k.ts" (mkFlags (-1) false false) ∅
                         0 0 0 9 true _ [] 3 H1 H2)) eq_refl).
Defined.

(** C8, as the program has it.  When the command fails to start, the
    session removes the entry it has just created and prints the failure
    on standard error; it then goes on as after a run: no record of output
    is captured, but [plex] still encodes one record, the exit-status
    record with code 0, into the sink of the removed entry.  No entry is
    left under the name. *)
Theorem start_failure (location : string) (fl : Flags) (fs : gmap string File)
    (t0 out_at err_at closed : Z) (op cr : bool) (er : string) :
  let env := mkEnv t0 op cr out_at err_at (NotStarted er) closed in
  let r := capture location fl env fs in
  files r !! location = None
  /\ console r = start_message (NotStarted er)
  /\ stderr_of (console r)
     = list_byte_of_string
         (String.append "cmd.Start() failed with '"
            (String.append er (String.append "'" (String (ascii_of_nat 10) ""))))
  /\ started r = false
  /\ delivered_records env = []
  /\ sink r = [FWrite (Marshal (exit_record 0)); Finished].
Proof.
  intros env r. subst r. rewrite capture_eq. subst env.
  cbn [files console started sink child removes Wait exitCode_of].
  repeat split.
  - apply lookup_delete_eq.
  - cbn. apply app_nil_r.
Qed.

(** C8 as stated fails: after a failed start one record is still encoded
    and written to the sink. *)
Lemma start_failure_writes_exit_record :
  written (sink (capture "k.ts" (mkFlags (-1) false false)
                   (mkEnv 0 true true 0 0 (NotStarted "not found") 0) ∅))
  = Marshal (mkBufRecord 0 127 [byte_of_Z 0])
  /\ length (Marshal (mkBufRecord 0 127 [byte_of_Z 0])) = 15%nat.
Proof. split; vm_compute; reflexivity. Qed.

(** C9, as the program has it.  The errors of [os.Create] and [os.Open]
    are dropped, there is no fallback.  When the entry is absent and cannot
    be created, the capture goes on with a sink that holds nothing: the
    command is started, the session leaves with its exit code, and no
    entry appears.  When a fresh entry cannot be opened, the command is
    not started: the replay reads through a nil reader and the program
    ends in a run-time panic, with nothing on the console and the files
    as they were. *)
Theorem filesystem_errors_are_dropped (location : string) (fl : Flags) (env : Env)
    (fs : gmap string File) :
  (fs !! location = None -> created env = false ->
     started (run location fl env fs) = is_started (child env)
     /\ ending (run location fl env fs) = Exit (exitCode_of (Wait (child env)))
     /\ files (run location fl env fs) !! location = None)
  /\ (forall f, lookup_entry location (ttl fl) (now env) fs = Some f ->
      opened env = false ->
      run location fl env fs = mkResult fs [] [] false Crash).
Proof.
  split.
  - intros Hn Hc. unfold run, lookup_entry. rewrite Hn, capture_eq, Hc.
    cbn [started ending files]. repeat split.
    destruct (removes (keepNeg fl) (child env)); [apply lookup_delete_eq | exact Hn].
  - intros f Hl Ho. unfold run. rewrite Hl. unfold replay. now rewrite Ho.
Qed.

(** C9 as stated fails: a fresh entry that cannot be opened does not make
    the program run the command; it ends in a panic that is not an exit. *)
Lemma unreadable_entry_crashes :
  lookup_entry "k.ts" (-1) 5 {["k.ts"%string := quiet_entry]} = Some quiet_entry
  /\ started (run "k.ts" (mkFlags (-1) false false)
                (mkEnv 5 false true 0 0 (Started [] [] WaitNil) 9)
                {["k.ts"%string := quiet_entry]}) = false
  /\ ending (run "k.ts" (mkFlags (-1) false false)
               (mkEnv 5 false true 0 0 (Started [] [] WaitNil) 9)
               {["k.ts"%string := quiet_entry]}) = Crash.
Proof. repeat split; vm_compute; reflexivity. Qed.

(** ** The name of the entry *)

(** C10. The name of the entry is computed from the arguments joined by
    one space, so the argument lists ["a b"; "c"] and ["a"; "b"; "c"],
    which differ, have the same name, whatever the digest: a run with the
    second list that finds the entry that a run with the first list left
    does not start its command and replays that entry. *)
Theorem cache_key_collision
    (md5_Sum : list byte -> list byte) (path_Join : list string -> string)
    (usage_text defaults_text : list byte) (home : string)
    (fl1 fl2 : Flags) (env1 env2 : Env) (fs : gmap string File) (f : File) :
  let l1 := ["a b"; "c"]%string in
  let l2 := ["a"; "b"; "c"]%string in
  let r1 := main md5_Sum path_Join usage_text defaults_text home fl1 l1 env1 fs in
  let r2 := main md5_Sum path_Join usage_text defaults_text home fl2 l2 env2 (files r1) in
  lookup_entry (location md5_Sum path_Join home l1) (ttl fl2) (now env2) (files r1)
    = Some f ->
  l1 <> l2
  /\ String.concat " " l1 = String.concat " " l2
  /\ location md5_Sum path_Join home l1 = location md5_Sum path_Join home l2
  /\ started r2 = false
  /\ (console r2, ending r2) = replay (delay fl2) (opened env2) f.
Proof.
  intros l1 l2 r1 r2 Hl.
  assert (E : location md5_Sum path_Join home l1 = location md5_Sum path_Join home l2)
    by reflexivity.
  repeat split; try discriminate; try exact E.
  - subst r2. cbn [main l2]. unfold run. rewrite <- E, Hl.
    now destruct (replay (delay fl2) (opened env2) f).
  - subst r2. cbn [main l2]. unfold run. rewrite <- E, Hl.
    now destruct (replay (delay fl2) (opened env2) f).
Qed.

Lemma cache_key_collision_witness :
  lookup_entry (location sample_digest sample_join "/home/u" ["a b"; "c"]%string)
    (-1) 20
    (files (main sample_digest sample_join [] [] "/home/u"
              (mkFlags (-1) false false) ["a b"; "c"]%string first_env ∅))
  = Some first_entry
  /\ started (main sample_digest sample_join [] [] "/home/u"
                (mkFlags (-1) false false) ["a"; "b"; "c"]%string second_env
                (files (main sample_digest sample_join [] [] "/home/u"
                          (mkFlags (-1) false false) ["a b"; "c"]%string first_env ∅)))
     = false
  /\ replay false true first_entry
     = ([Stdout ["h"%byte; "i"%byte]], Exit 0).
Proof.
  assert (H : lookup_entry
                (location sample_digest sample_join "/home/u" ["a b"; "c"]%string)
                (-1) 20
                (files (main sample_digest sample_join [] [] "/home/u"
                          (mkFlags (-1) false false) ["a b"; "c"]%string first_env ∅))
              = Some first_entry)
    by (vm_compute; reflexivity).
  split; [exact H|]. split.
  - exact (proj1 (proj2 (proj2 (proj2
      (cache_key_collision sample_digest sample_join [] [] "/home/u"
         (mkFlags (-1) false false) (mkFlags (-1) false false)
         first_env second_env ∅ first_entry H))))).
  - vm_compute; reflexivity.
Defined.

(** An entry modified at time 0 and looked up 5.9 seconds later is five
    whole seconds old: fresh under a ttl of 5, and stale under a ttl of 4,
    for which it is one second too old. *)
Lemma lookup_fresh_witness :
  is_fresh 5 5900000000 quiet_entry = true
  /\ is_fresh 4 5900000000 quiet_entry = false.
Proof.
  split.
  - exact (proj1 (proj2 (lookup_fresh "k.ts" 5 5900000000 ∅)) quiet_entry eq_refl).
  - refine (proj2 (proj2 (lookup_fresh "k.ts" 4 5900000000 ∅)) quiet_entry _ eq_refl).
    discriminate.
Defined.

(** The entry is absent and cannot be created: the command still runs. *)
Lemma filesystem_errors_are_dropped_witness :
  let env := mkEnv 0 true false 0 0 (Started [] [] WaitNil) 9 in
  started (run "k.ts" (mkFlags (-1) false false) env ∅) = true
  /\ ending (run "k.ts" (mkFlags (-1) false false) env ∅) = Exit 0
  /\ files (run "k.ts" (mkFlags (-1) false false) env ∅) !! "k.ts"%string = None.
Proof.
  exact (proj1 (filesystem_errors_are_dropped "k.ts" (mkFlags (-1) false false)
                 (mkEnv 0 true false 0 0 (Started [] [] WaitNil) 9) ∅)
           eq_refl eq_refl).
Defined.

(** * Further properties *)

(** ** The timestamped stream *)

Lemma stamp_leg_out (cs : list chunk) :
  forall out err err' : Timestamped,
  id err <> id out ->
  List.filter (fun r => Id r =? id out) (fst (stamp out err cs))
  = fst (stamp out err' (List.filter (on_leg LegOut) cs)).
Proof.
  induction cs as [|c cs IH]; intros out err err' Hne; [reflexivity|].
  cbn [stamp List.filter]. unfold on_leg at 1. destruct (src c) eqn:Es; unfold Write.
  - specialize (IH (mkTimestamped (at_time c) (id out)) err err' Hne).
    cbn [stamp]. rewrite Es. unfold Write.
    destruct (stamp (mkTimestamped (at_time c) (id out)) err cs) as [recs st].
    destruct (stamp (mkTimestamped (at_time c) (id out)) err' _) as [recs' st'].
    cbn [fst List.filter Id id] in *. rewrite Z.eqb_refl, IH. reflexivity.
  - specialize (IH out (mkTimestamped (at_time c) (id err)) err' Hne).
    destruct (stamp out (mkTimestamped (at_time c) (id err)) cs) as [recs st].
    cbn [fst List.filter Id id] in *.
    destruct (Z.eqb_spec (id err) (id out)); [contradiction | exact IH].
Qed.

Lemma stamp_leg_err (cs : list chunk) :
  forall out out' err : Timestamped,
  id out <> id err ->
  List.filter (fun r => Id r =? id err) (fst (stamp out err cs))
  = fst (stamp out' err (List.filter (on_leg LegErr) cs)).
Proof.
  induction cs as [|c cs IH]; intros out out' err Hne; [reflexivity|].
  cbn [stamp List.filter]. unfold on_leg at 1. destruct (src c) eqn:Es; unfold Write.
  - specialize (IH (mkTimestamped (at_time c) (id out)) out' err Hne).
    destruct (stamp (mkTimestamped (at_time c) (id out)) err cs) as [recs st].
    cbn [fst List.filter Id id] in *.
    destruct (Z.eqb_spec (id out) (id err)); [contradiction | exact IH].
  - specialize (IH out out' (mkTimestamped (at_time c) (id err)) Hne).
    cbn [stamp]. rewrite Es. unfold Write.
    destruct (stamp out (mkTimestamped (at_time c) (id err)) cs) as [recs st].
    destruct (stamp out' (mkTimestamped (at_time c) (id err)) _) as [recs' st'].
    cbn [fst List.filter Id id] in *. rewrite Z.eqb_refl, IH. reflexivity.
Qed.

(** X1. Each leg keeps its own clock: the records of a leg, elapsed times
    included, are those that its writes alone would give, whatever the
    other leg wrote in between and whenever the other leg was opened. *)
Theorem legs_keep_their_own_clock (a b a' b' : Z) (cs : list chunk) :
  List.filter (fun r => Id r =? 1) (fst (stamp (OpenTS 1 a) (OpenTS 2 b) cs))
  = fst (stamp (OpenTS 1 a) (OpenTS 2 b') (List.filter (on_leg LegOut) cs))
  /\ List.filter (fun r => Id r =? 2) (fst (stamp (OpenTS 1 a) (OpenTS 2 b) cs))
     = fst (stamp (OpenTS 1 a') (OpenTS 2 b) (List.filter (on_leg LegErr) cs)).
Proof.
  split.
  - apply (stamp_leg_out cs (OpenTS 1 a) (OpenTS 2 b) (OpenTS 2 b')). discriminate.
  - apply (stamp_leg_err cs (OpenTS 1 a) (OpenTS 1 a') (OpenTS 2 b)). discriminate.
Qed.

Lemma time_Sub_exact (a b : Z) :
  b <= a -> a - b <= MaxInt64 -> time_Sub a b = a - b.
Proof.
  unfold time_Sub, MinInt64, MaxInt64. intros H1 H2.
  destruct (Z.ltb_spec (a - b) (- 2 ^ 63)); [lia|].
  destruct (Z.ltb_spec (2 ^ 63 - 1) (a - b)); lia.
Qed.

Lemma quot_Millisecond_floor (d : Z) :
  0 <= d ->
  0 <= Z.quot d Millisecond
  /\ Z.quot d Millisecond * Millisecond <= d < (Z.quot d Millisecond + 1) * Millisecond.
Proof.
  unfold Millisecond. intros H.
  Z.to_euclidean_division_equations. lia.
Qed.

(** X2. A write made no earlier than the previous one of its stream (and
    within the range of a duration) records the whole milliseconds that
    have passed since, carries the id of the stream and the bytes given,
    and sets the clock of the stream to the time of the write. *)
Theorem Write_elapsed (ts : Timestamped) (tn : Z) (d : list byte) :
  t ts <= tn -> tn - t ts <= MaxInt64 ->
  0 <= T (fst (Write ts tn d))
  /\ T (fst (Write ts tn d)) * Millisecond <= tn - t ts
     < (T (fst (Write ts tn d)) + 1) * Millisecond
  /\ Id (fst (Write ts tn d)) = id ts
  /\ Buf (fst (Write ts tn d)) = d
  /\ snd (Write ts tn d) = mkTimestamped tn (id ts).
Proof.
  intros H1 H2. unfold Write. cbn [fst snd T Id Buf].
  rewrite time_Sub_exact by assumption.
  destruct (quot_Millisecond_floor (tn - t ts)) as (Q1 & Q2); [lia|].
  repeat split; try assumption; lia.
Qed.

Lemma Write_elapsed_witness :
  t (OpenTS 1 5000000) <= 8999999
  /\ 8999999 - t (OpenTS 1 5000000) <= MaxInt64
  /\ T (fst (Write (OpenTS 1 5000000) 8999999 ["a"%byte])) = 3.
Proof.
  assert (H1 : t (OpenTS 1 5000000) <= 8999999) by (cbn; lia).
  assert (H2 : 8999999 - t (OpenTS 1 5000000) <= MaxInt64)
    by (cbn; unfold MaxInt64; lia).
  split; [exact H1|]. split; [exact H2|].
  destruct (Write_elapsed (OpenTS 1 5000000) 8999999 ["a"%byte] H1 H2)
    as (_ & B & _).
  cbn [OpenTS t] in B. unfold Millisecond in B. lia.
Defined.

Lemma ascending_last (cs : list chunk) :
  forall t0, ascending t0 cs -> t0 <= last_time t0 cs.
Proof.
  induction cs as [|c cs IH]; intros t0 H; cbn in *; [lia|].
  destruct H as [H1 H2]. specialize (IH _ H2). lia.
Qed.

Lemma stamp_total_elapsed (cs : list chunk) :
  forall out err : Timestamped,
  Forall (fun c => src c = LegOut) cs ->
  ascending (t out) cs ->
  last_time (t out) cs - t out <= MaxInt64 ->
  total_elapsed (fst (stamp out err cs)) * Millisecond
    <= last_time (t out) cs - t out
    <= total_elapsed (fst (stamp out err cs)) * Millisecond
       + Z.of_nat (length cs) * (Millisecond - 1).
Proof.
  induction cs as [|c cs IH]; intros out err Hl Ha Hs.
  - cbn. unfold Millisecond. lia.
  - inversion Hl as [|? ? Hc Hl']; subst. destruct Ha as [A1 A2].
    cbn [last_time] in *. pose proof (ascending_last cs _ A2) as A3.
    cbn [stamp]. rewrite Hc. unfold Write.
    specialize (IH (mkTimestamped (at_time c) (id out)) err Hl' A2).
    cbn [t] in IH. specialize (IH ltac:(lia)).
    destruct (stamp (mkTimestamped (at_time c) (id out)) err cs) as [recs st].
    cbn [fst total_elapsed fold_right T length] in *.
    fold (total_elapsed recs) in *.
    rewrite time_Sub_exact by lia.
    destruct (quot_Millisecond_floor (at_time c - t out)) as (Q1 & Q2); [lia|].
    rewrite Nat2Z.inj_succ. unfold Millisecond in *. lia.
Qed.

(** X3. On one leg whose clock never goes back, the elapsed times of the
    records add up to the time between the opening of the stream and its
    last write, short of less than a millisecond for each write: the
    truncation of every write is lost, and nothing else. *)
Theorem elapsed_times_add_up (opened_at other : Z) (cs : list chunk) :
  Forall (fun c => src c = LegOut) cs ->
  ascending opened_at cs ->
  last_time opened_at cs - opened_at <= MaxInt64 ->
  total_elapsed (fst (stamp (OpenTS 1 opened_at) (OpenTS 2 other) cs)) * Millisecond
    <= last_time opened_at cs - opened_at
    <= total_elapsed (fst (stamp (OpenTS 1 opened_at) (OpenTS 2 other) cs)) * Millisecond
       + Z.of_nat (length cs) * (Millisecond - 1).
Proof.
  intros Hl Ha Hs.
  exact (stamp_total_elapsed cs (OpenTS 1 opened_at) (OpenTS 2 other) Hl Ha Hs).
Qed.

Lemma elapsed_times_add_up_witness :
  Forall (fun c => src c = LegOut) two_writes
  /\ ascending 0 two_writes
  /\ last_time 0 two_writes - 0 <= MaxInt64
  /\ total_elapsed (fst (stamp (OpenTS 1 0) (OpenTS 2 0) two_writes)) * Millisecond
       <= last_time 0 two_writes - 0
       <= total_elapsed (fst (stamp (OpenTS 1 0) (OpenTS 2 0) two_writes)) * Millisecond
          + Z.of_nat (length two_writes) * (Millisecond - 1).
Proof.
  assert (H1 : Forall (fun c => src c = LegOut) two_writes) by (repeat constructor).
  assert (H2 : ascending 0 two_writes) by (cbn; lia).
  assert (H3 : last_time 0 two_writes - 0 <= MaxInt64) by (cbn; unfold MaxInt64; lia).
  split; [exact H1|]. split; [exact H2|]. split; [exact H3|].
  exact (elapsed_times_add_up 0 0 two_writes H1 H2 H3).
Defined.

(** ** [plex] and failing encodes *)

(** X4. [plex] signals [finished] and returns exactly when the channel
    delivers a record with id 127 that marshals.  A record that does not
    marshal is dropped without a trace, also when its id is 127: what
    [plex] writes and whether it returns are the same as on the channel
    without those records. *)
Theorem plex_returns_on_marshalled_exit
    (marshal : BufRecord -> option (list byte)) (ch : list BufRecord) :
  snd (fst (plex marshal ch))
  = existsb (fun r => marshals marshal r && (Id r =? 127)) ch
  /\ fst (plex marshal ch)
     = fst (plex marshal (List.filter (marshals marshal) ch)).
Proof.
  induction ch as [|r ch [IH1 IH2]]; [split; reflexivity|].
  cbn [plex existsb List.filter]. unfold marshals at 1 3.
  destruct (marshal r) as [out|] eqn:E.
  - cbn [plex andb]. rewrite E.
    destruct (Id r =? 127); [split; reflexivity|].
    destruct (plex marshal ch) as [[evs ret] unread].
    destruct (plex marshal (List.filter (marshals marshal) ch)) as [[evs' ret'] unread'].
    cbn [fst snd orb] in *. split; [exact IH1|]. now inversion IH2.
  - cbn [andb orb]. split; assumption.
Qed.

(** ** The replay loop on any stream *)

Lemma replay_step_exit_byte (delay : bool) (exitCode exitCode' : Z) (i : value)
    (evs : list event) :
  replay_step delay exitCode i = (evs, inl exitCode') ->
  0 <= exitCode <= 255 -> 0 <= exitCode' <= 255.
Proof.
  unfold replay_step. intros H Hr.
  destruct (assert_fields i) as [[[tv id0] buf]|]; [|discriminate].
  destruct (if delay then _ else _) as [sl|]; [|discriminate].
  destruct (id0 =? 1); [injection H as _ <-; exact Hr|].
  destruct (id0 =? 2); [injection H as _ <-; exact Hr|].
  destruct (id0 =? 127); [|injection H as _ <-; exact Hr].
  destruct buf as [|b buf]; [discriminate|].
  injection H as _ <-. pose proof (Z_of_byte_range b). lia.
Qed.

Lemma replay_loop_exit_byte (fuel : nat) :
  forall (delay : bool) (exitCode : Z) (bs : list byte) (code : Z),
  0 <= exitCode <= 255 ->
  snd (replay_loop fuel delay exitCode bs) = Exit code ->
  0 <= code <= 255.
Proof.
  induction fuel as [|f IH]; intros delay exitCode bs code Hr H; [discriminate|].
  cbn [replay_loop] in H.
  destruct (DecodeInterface bs) as [i rest| | |]; try discriminate.
  - destruct (replay_step delay exitCode i) as [evs [ec'|o]] eqn:Es.
    + pose proof (replay_step_exit_byte _ _ _ _ _ Es Hr) as Hr'.
      specialize (IH delay ec' rest code Hr').
      destruct (replay_loop f delay ec' rest) as [evs' o']. cbn in *. now apply IH.
    + cbn in H. subst o. unfold replay_step in Es.
      destruct (assert_fields i) as [[[tv id0] buf]|]; [|discriminate].
      destruct (if delay then _ else _) as [sl|]; [|discriminate].
      destruct (id0 =? 1); [discriminate|].
      destruct (id0 =? 2); [discriminate|].
      destruct (id0 =? 127); [|discriminate].
      destruct buf; discriminate.
  - cbn in H. injection H as <-. exact Hr.
Qed.

(** X5. Whatever the entry holds, a replay that ends with an exit code
    ends with one from 0 to 255: the code is zero or a byte of the
    stream. *)
Theorem replay_exit_code_is_a_byte (delay opened : bool) (f : File) (code : Z) :
  snd (replay delay opened f) = Exit code -> 0 <= code <= 255.
Proof.
  unfold replay. destruct opened; [|discriminate].
  destruct (data f) as [|stream]; [discriminate|].
  apply replay_loop_exit_byte. lia.
Qed.

Lemma replay_exit_code_is_a_byte_witness :
  snd (replay true true (mkFile 0 (Gzip (encode_stream sample_records)))) = Exit 255
  /\ 0 <= 255 <= 255.
Proof.
  assert (H : snd (replay true true (mkFile 0 (Gzip (encode_stream sample_records))))
              = Exit 255) by (vm_compute; reflexivity).
  split; [exact H|].
  exact (replay_exit_code_is_a_byte true true _ 255 H).
Defined.

Lemma without_sleeps_app (a b : list event) :
  without_sleeps (a ++ b) = without_sleeps a ++ without_sleeps b.
Proof. apply List.filter_app. Qed.

Lemma replay_step_paced (exitCode : Z) (i : value) (evs : list event)
    (r : Z + outcome) :
  replay_step true exitCode i = (evs, r) ->
  r <> inr OutsideModel ->
  replay_step false exitCode i = (without_sleeps evs, r).
Proof.
  unfold replay_step. intros H Hn.
  destruct (assert_fields i) as [[[tv id0] buf]|]; [|now inversion H].
  destruct (DurationOf tv) as [d|]; [|inversion H; subst; contradiction].
  destruct (id0 =? 1); [now inversion H|].
  destruct (id0 =? 2); [now inversion H|].
  destruct (id0 =? 127); [|now inversion H].
  destruct buf; now inversion H.
Qed.

Lemma replay_loop_paced (fuel : nat) :
  forall (exitCode : Z) (bs : list byte),
  snd (replay_loop fuel true exitCode bs) <> OutsideModel ->
  replay_loop fuel false exitCode bs
  = (without_sleeps (fst (replay_loop fuel true exitCode bs)),
     snd (replay_loop fuel true exitCode bs)).
Proof.
  induction fuel as [|f IH]; intros exitCode bs Hn; [reflexivity|].
  cbn [replay_loop] in *.
  destruct (DecodeInterface bs) as [i rest| | |]; try reflexivity.
  destruct (replay_step true exitCode i) as [evs [ec'|o]] eqn:Es.
  - rewrite (replay_step_paced _ _ _ _ Es) by discriminate.
    specialize (IH ec' rest).
    destruct (replay_loop f true ec' rest) as [evs' o'].
    cbn [fst snd] in *. rewrite (IH Hn), without_sleeps_app. reflexivity.
  - cbn [fst snd] in *.
    rewrite (replay_step_paced _ _ _ _ Es) by congruence. reflexivity.
Qed.

(** X6. Pacing changes the timing and nothing else: when the paced replay
    of an entry stays within the modelled format, the replay without
    pacing writes the same output in the same order, without the sleeps,
    and ends the same way. *)
Theorem pacing_only_adds_sleeps (opened : bool) (f : File) :
  snd (replay true opened f) <> OutsideModel ->
  replay false opened f
  = (without_sleeps (fst (replay true opened f)), snd (replay true opened f)).
Proof.
  unfold replay. destruct opened; [|reflexivity].
  destruct (data f) as [|stream]; [reflexivity|].
  apply replay_loop_paced.
Qed.

Lemma pacing_only_adds_sleeps_witness :
  snd (replay true true (mkFile 0 (Gzip (encode_stream sample_records)))) <> OutsideModel
  /\ replay false true (mkFile 0 (Gzip (encode_stream sample_records)))
     = (without_sleeps
          (fst (replay true true (mkFile 0 (Gzip (encode_stream sample_records))))),
        snd (replay true true (mkFile 0 (Gzip (encode_stream sample_records))))).
Proof.
  assert (H : snd (replay true true (mkFile 0 (Gzip (encode_stream sample_records))))
              <> OutsideModel) by (vm_compute; discriminate).
  split; [exact H|].
  exact (pacing_only_adds_sleeps true _ H).
Defined.

(** X7. The replay loop ends on every entry: with an exit code, with a
    panic, or on input outside the modelled format, and never by waiting;
    every turn of the loop uses at least one byte of the stream. *)
Theorem replay_never_hangs (delay opened : bool) (f : File) :
  snd (replay delay opened f) <> Blocked.
Proof. apply replay_total. Qed.

Lemma replay_loop_fuel (f1 : nat) :
  forall (f2 : nat) (delay : bool) (exitCode : Z) (bs : list byte),
  (length bs < f1)%nat -> (length bs < f2)%nat ->
  replay_loop f1 delay exitCode bs = replay_loop f2 delay exitCode bs.
Proof.
  induction f1 as [|a IH]; intros f2 delay exitCode bs H1 H2; [lia|].
  destruct f2 as [|b]; [lia|]. cbn [replay_loop].
  destruct (DecodeInterface_fuel bs) as [_ K].
  destruct (DecodeInterface bs) as [i rest| | |]; try reflexivity.
  specialize (K i rest eq_refl).
  destruct (replay_step delay exitCode i) as [evs [ec'|o]]; [|reflexivity].
  rewrite (IH b delay ec' rest) by lia. reflexivity.
Qed.

Lemma replay_loop_prefix (delay : bool) (recs : list BufRecord) (tail : list byte) :
  Forall playable recs ->
  forall (fuel : nat) (exitCode : Z),
  replay_loop (length recs + fuel) delay exitCode (encode_stream recs ++ tail)
  = (flat_map (emit delay) recs
       ++ fst (replay_loop fuel delay (fold_left exit_after recs exitCode) tail),
     snd (replay_loop fuel delay (fold_left exit_after recs exitCode) tail)).
Proof.
  induction 1 as [|rec recs Hr _ IH]; intros fuel exitCode.
  - cbn [length Nat.add encode_stream flat_map app fold_left].
    now destruct (replay_loop fuel delay exitCode tail).
  - cbn [length Nat.add encode_stream flat_map replay_loop fold_left].
    rewrite <- app_assoc.
    rewrite DecodeInterface_Marshal by (apply storable_encodable, Hr).
    rewrite replay_step_record by assumption.
    fold (encode_stream recs). rewrite IH.
    cbn [fst snd]. now rewrite app_assoc.
Qed.

(** X8. Encoded records are self-delimiting for the replay: an entry that
    starts with encoded records is replayed by playing those records and
    then replaying what follows them, whatever it is, from the exit code
    reached so far. *)
Theorem replay_after_records (delay : bool) (mtime : Z) (recs : list BufRecord)
    (tail : list byte) :
  Forall playable recs ->
  replay delay true (mkFile mtime (Gzip (encode_stream recs ++ tail)))
  = (flat_map (emit delay) recs
       ++ fst (replay_loop (S (length tail)) delay (List.last (exit_bytes recs) 0) tail),
     snd (replay_loop (S (length tail)) delay (List.last (exit_bytes recs) 0) tail)).
Proof.
  intros Hp. unfold replay. cbn [data].
  pose proof (encode_stream_length recs) as Hl.
  rewrite length_app.
  replace (S (length (encode_stream recs) + length tail))
    with (length recs + (S (length (encode_stream recs) + length tail) - length recs))%nat
    by lia.
  rewrite (replay_loop_prefix delay recs tail Hp).
  rewrite fold_exit_after.
  rewrite (replay_loop_fuel _ (S (length tail))) by lia.
  reflexivity.
Qed.

Lemma replay_after_records_witness :
  Forall playable sample_records
  /\ replay false true
       (mkFile 0 (Gzip (encode_stream sample_records ++ [byte_of_Z 5])))
     = (flat_map (emit false) sample_records
          ++ fst (replay_loop 2 false (List.last (exit_bytes sample_records) 0)
                    [byte_of_Z 5]),
        snd (replay_loop 2 false (List.last (exit_bytes sample_records) 0)
               [byte_of_Z 5])).
Proof.
  split; [exact sample_records_playable|].
  exact (replay_after_records false 0 sample_records [byte_of_Z 5]
           sample_records_playable).
Defined.

Lemma int_kind_wide (n : Z) : ~ (-128 <= n <= 127) -> int_kind n <> Int8.
Proof. intros H. unfold int_kind. split_cmp; discriminate. Qed.

Lemma replay_step_unplayable (delay : bool) (exitCode : Z) (rec : BufRecord) :
  in_int64 (T rec) = true ->
  ~ (-128 <= Id rec <= 127) \/ (Id rec = 127 /\ Buf rec = []) ->
  exists evs, replay_step delay exitCode (record_value rec) = (evs, inr Crash)
              /\ without_sleeps evs = [].
Proof.
  intros HT [Hw|[Hi Hb]].
  - exists []. split; [|reflexivity].
    unfold replay_step, record_value, assert_fields.
    cbn [map_get String.eqb Ascii.eqb Bool.eqb].
    pose proof (int_kind_wide _ Hw) as K.
    destruct (int_kind (Id rec)); try reflexivity. contradiction.
  - unfold replay_step. rewrite assert_fields_record by lia.
    rewrite DurationOf_int by assumption. rewrite Hi, Hb.
    destruct delay; eexists; (split; [reflexivity|reflexivity]).
Qed.

(** X9. The reader cannot play every record that the writer can encode.
    A record whose id lies outside the range of [int8] comes back with
    another dynamic type and fails the assertion on ["Id"]; an exit-status
    record without a payload byte fails the index.  Either way the replay
    plays the records before it and then ends in a run-time panic that is
    not an exit. *)
Theorem unplayable_record_crashes (delay : bool) (mtime : Z)
    (recs : list BufRecord) (rec : BufRecord) (rest : list byte) :
  Forall playable recs ->
  encodable rec ->
  ~ (-128 <= Id rec <= 127) \/ (Id rec = 127 /\ Buf rec = []) ->
  snd (replay delay true
         (mkFile mtime (Gzip (encode_stream recs ++ Marshal rec ++ rest))))
  = Crash
  /\ without_sleeps
       (fst (replay delay true
               (mkFile mtime (Gzip (encode_stream recs ++ Marshal rec ++ rest)))))
     = without_sleeps (flat_map (emit delay) recs).
Proof.
  intros Hp He Hu. rewrite (replay_after_records delay mtime recs _ Hp).
  cbn [fst snd replay_loop].
  rewrite DecodeInterface_Marshal by assumption.
  destruct (replay_step_unplayable delay (List.last (exit_bytes recs) 0) rec
              (proj1 He) Hu) as (evs & Es & Ew).
  rewrite Es. cbn [fst snd]. split; [reflexivity|].
  now rewrite without_sleeps_app, Ew, app_nil_r.
Qed.

Lemma unplayable_record_crashes_witness :
  Forall playable sample_records
  /\ encodable wide_record
  /\ (~ (-128 <= Id wide_record <= 127) \/ (Id wide_record = 127 /\ Buf wide_record = []))
  /\ snd (replay false true
            (mkFile 0 (Gzip (encode_stream sample_records ++ Marshal wide_record ++ []))))
     = Crash.
Proof.
  assert (He : encodable wide_record) by (repeat split; cbn; lia).
  assert (Hu : ~ (-128 <= Id wide_record <= 127)
               \/ (Id wide_record = 127 /\ Buf wide_record = []))
    by (left; cbn; lia).
  split; [exact sample_records_playable|]. split; [exact He|]. split; [exact Hu|].
  exact (proj1 (unplayable_record_crashes false 0 sample_records wide_record []
                  sample_records_playable He Hu)).
Defined.

(** ** [DurationOf] after the decoder *)

(** X10. [DurationOf] gives back every [int] that went through the codec,
    under whichever dynamic type the decoder returns it: that is what the
    detour through the printed text is for. *)
Theorem DurationOf_decoded (n : Z) (rest : list byte) :
  in_int64 n = true ->
  exists v, DecodeInterface (EncodeInt n ++ rest) = Decoded v rest
            /\ DurationOf v = Some n.
Proof.
  intros H. exists (VInt (int_kind n) n). split.
  - unfold DecodeInterface. apply decode_EncodeInt, H.
  - apply DurationOf_int, H.
Qed.

Lemma DurationOf_decoded_witness :
  in_int64 70000 = true
  /\ exists v, DecodeInterface (EncodeInt 70000 ++ []) = Decoded v []
               /\ DurationOf v = Some 70000.
Proof.
  split; [reflexivity|].
  exact (DurationOf_decoded 70000 [] eq_refl).
Defined.

(** ** From a capture to its replay *)

Lemma play_delivered (delay : bool) (recs : list BufRecord) :
  forall cs : list chunk,
  map (fun r => (Id r, Buf r)) recs = map (fun c => (leg_id (src c), bytes c)) cs ->
  without_sleeps (flat_map (emit delay) recs) = map play_chunk cs.
Proof.
  induction recs as [|r recs IH]; intros cs H.
  - destruct cs; [reflexivity | discriminate].
  - destruct cs as [|c cs]; [discriminate|].
    cbn [map] in H. injection H as H1 H2 H3.
    cbn [flat_map map]. rewrite without_sleeps_app, (IH cs H3).
    f_equal. unfold emit, play_chunk. rewrite H1, H2.
    destruct delay, (src c); reflexivity.
Qed.

Lemma play_captured (delay : bool) (env : Env) :
  without_sleeps (flat_map (emit delay) (captured env))
  = map play_chunk (delivered_of (child env)).
Proof.
  unfold captured. rewrite flat_map_app, without_sleeps_app.
  rewrite (play_delivered delay _ _ (delivered_records_spec env)).
  cbn [flat_map]. unfold emit, exit_record. cbn [Id].
  destruct delay; cbn; now rewrite app_nil_r.
Qed.

(** X11. A capture that keeps its entry, followed by a run that finds the
    entry fresh and can open it: the second run does not start the
    command and leaves the files alone; it writes to standard output and
    standard error the bytes of the writes that the first run delivered to
    the channel, each on the stream of its leg and in the order of their
    delivery, and ends with the exit code of the command modulo 256. *)
Theorem capture_then_replay (location : string) (fl1 fl2 : Flags) (env1 env2 : Env)
    (fs : gmap string File) :
  Forall small (delivered_of (child env1)) ->
  created env1 = true ->
  removes (keepNeg fl1) (child env1) = false ->
  opened env2 = true ->
  is_fresh (ttl fl2) (now env2)
    (mkFile (closed_at env1) (Gzip (encode_stream (captured env1)))) = true ->
  started (run location fl2 env2 (files (capture location fl1 env1 fs))) = false
  /\ without_sleeps (console (run location fl2 env2 (files (capture location fl1 env1 fs))))
     = map play_chunk (delivered_of (child env1))
  /\ ending (run location fl2 env2 (files (capture location fl1 env1 fs)))
     = Exit (exitCode_of (Wait (child env1)) mod 256)
  /\ files (run location fl2 env2 (files (capture location fl1 env1 fs)))
     = files (capture location fl1 env1 fs).
Proof.
  intros Hs Hc Hr Ho Hf.
  rewrite (capture_eq location fl1 env1 fs), Hc, Hr. cbn [files].
  erewrite run_replays_captured;
    [| exact Hs | apply lookup_insert_eq | exact Hf | exact Ho].
  cbn [started console ending files].
  rewrite play_captured. auto.
Qed.

Lemma capture_then_replay_witness :
  Forall small (delivered_of (child first_env))
  /\ without_sleeps
       (console (run "k.ts" (mkFlags (-1) true false) second_env
                   (files (capture "k.ts" (mkFlags (-1) false false) first_env ∅))))
     = map play_chunk (delivered_of (child first_env)).
Proof.
  assert (Hs : Forall small (delivered_of (child first_env))) by (repeat constructor).
  split; [exact Hs|].
  exact (proj1 (proj2 (capture_then_replay "k.ts" (mkFlags (-1) false false)
                         (mkFlags (-1) true false) first_env second_env ∅
                         Hs eq_refl eq_refl eq_refl eq_refl))).
Defined.

(** X12. What a capture writes to its sink reads back, through the decoder
    and the reads of the replay loop, as the records that were sent, ids,
    payloads and elapsed times alike. *)
Theorem captured_stream_reads_back (location : string) (fl : Flags) (env : Env)
    (fs : gmap string File) :
  Forall small (delivered_of (child env)) ->
  decode_stream (written (sink (capture location fl env fs))) = Some (captured env).
Proof.
  intros Hs. rewrite capture_eq. cbn [sink]. rewrite written_writes.
  fold (captured env). rewrite <- (app_nil_r (encode_stream (captured env))).
  unfold decode_stream. apply decode_records_encode; [| reflexivity |].
  - eapply List.Forall_impl; [|apply (captured_playable env Hs)].
    intros r [H _]. exact H.
  - rewrite app_nil_r. pose proof (encode_stream_length (captured env)). lia.
Qed.

Lemma captured_stream_reads_back_witness :
  Forall small (delivered_of (child first_env))
  /\ decode_stream
       (written (sink (capture "k.ts" (mkFlags (-1) false false) first_env ∅)))
     = Some (captured first_env).
Proof.
  assert (Hs : Forall small (delivered_of (child first_env))) by (repeat constructor).
  split; [exact Hs|].
  exact (captured_stream_reads_back "k.ts" (mkFlags (-1) false false) first_env ∅ Hs).
Defined.

Lemma wrap64_small (z : Z) : MinInt64 <= z <= MaxInt64 -> wrap64 z = z.
Proof.
  unfold MinInt64, MaxInt64, wrap64. intros H.
  apply to_signed_mod; [lia|]. change (64 - 1) with 63. lia.
Qed.

Lemma Write_sleep_exact (ts : Timestamped) (tn : Z) (d : list byte) :
  wrap64 (T (fst (Write ts tn d)) * Millisecond) = T (fst (Write ts tn d)) * Millisecond.
Proof.
  unfold Write. cbn [fst T]. apply wrap64_small.
  pose proof (time_Sub_int64 tn (t ts)) as H. revert H.
  generalize (time_Sub tn (t ts)). intros dur.
  unfold MinInt64, MaxInt64, Millisecond. intros H.
  Z.to_euclidean_division_equations. lia.
Qed.

Lemma stamp_Forall (P : BufRecord -> Prop) (cs : list chunk) :
  (forall ts tn d, P (fst (Write ts tn d))) ->
  forall out err : Timestamped, Forall P (fst (stamp out err cs)).
Proof.
  intros HP. induction cs as [|c cs IH]; intros out err; [constructor|].
  cbn [stamp]. destruct (src c).
  - pose proof (HP out (at_time c) (bytes c)) as H.
    destruct (Write out (at_time c) (bytes c)) as [rec out'].
    specialize (IH out' err). destruct (stamp out' err cs) as [recs st].
    cbn [fst] in *. now constructor.
  - pose proof (HP err (at_time c) (bytes c)) as H.
    destruct (Write err (at_time c) (bytes c)) as [rec err'].
    specialize (IH out err'). destruct (stamp out err' cs) as [recs st].
    cbn [fst] in *. now constructor.
Qed.


(** ** What a run does to the files *)



(** X15. A stale entry does not survive a run that can create the entry
    file: when the lookup finds nothing fresh, the run leaves under the
    name either nothing (after a failed start, or a failing command
    without the flag for negative results) or the complete stream of the
    new capture with its new modification time. *)
Theorem stale_entry_is_replaced (location : string) (fl : Flags) (env : Env)
    (fs : gmap string File) :
  lookup_entry location (ttl fl) (now env) fs = None ->
  created env = true ->
  files (run location fl env fs) !! location
  = if removes (keepNeg fl) (child env) then None
    else Some (mkFile (closed_at env) (Gzip (encode_stream (captured env)))).
Proof.
  intros Hl Hc. unfold run. rewrite Hl, capture_eq, Hc. cbn [files].
  destruct (removes (keepNeg fl) (child env)).
  - apply lookup_delete_eq.
  - apply lookup_insert_eq.
Qed.

Lemma stale_entry_is_replaced_witness :
  lookup_entry "k.ts" 5 10000000000 {["k.ts"%string := old_entry]} = None
  /\ files (run "k.ts" (mkFlags 5 false false)
              (mkEnv 10000000000 true true 0 0
                 (Started [] [] WaitNil) 10000000009)
              {["k.ts"%string := old_entry]}) !! "k.ts"%string
     = Some (mkFile 10000000009 (Gzip (encode_stream [exit_record 0]))).
Proof.
  assert (H : lookup_entry "k.ts" 5 10000000000 {["k.ts"%string := old_entry]} = None)
    by (vm_compute; reflexivity).
  split; [exact H|].
  exact (stale_entry_is_replaced "k.ts" (mkFlags 5 false false)
           (mkEnv 10000000000 true true 0 0 (Started [] [] WaitNil) 10000000009)
           {["k.ts"%string := old_entry]} H eq_refl).
Defined.

(** ** Freshness *)

Lemma time_Sub_mono (a b m : Z) : a <= b -> time_Sub a m <= time_Sub b m.
Proof.
  unfold time_Sub, MinInt64, MaxInt64. intros H.
  destruct (Z.ltb_spec (a - m) (- 2 ^ 63)), (Z.ltb_spec (b - m) (- 2 ^ 63)),
    (Z.ltb_spec (2 ^ 63 - 1) (a - m)), (Z.ltb_spec (2 ^ 63 - 1) (b - m)); lia.
Qed.

(** X16. Freshness only wears off: an entry that is fresh under a ttl
    other than -1 was fresh at every earlier time and is fresh under every
    longer ttl; so an entry that is stale stays stale as time goes on. *)
Theorem freshness_is_monotone (ttl ttl' now now' : Z) (stat : File) :
  is_fresh ttl now stat = true ->
  ttl <> -1 -> ttl <= ttl' -> now' <= now ->
  is_fresh ttl' now' stat = true.
Proof.
  unfold is_fresh. intros H Hn Ht Hw.
  apply orb_true_iff in H as [H|H]; [apply Z.eqb_eq in H; contradiction|].
  apply Z.leb_le in H. apply orb_true_iff. right. apply Z.leb_le.
  pose proof (time_Sub_mono now' now (ModTime stat) Hw) as M.
  pose proof (Z.quot_le_mono _ _ Second ltac:(unfold Second; lia) M). lia.
Qed.

Lemma freshness_is_monotone_witness :
  is_fresh 5 5900000000 quiet_entry = true
  /\ is_fresh 60 1000000000 quiet_entry = true.
Proof.
  assert (H : is_fresh 5 5900000000 quiet_entry = true) by reflexivity.
  split; [exact H|].
  refine (freshness_is_monotone 5 60 5900000000 1000000000 quiet_entry H _ _ _); lia.
Defined.

(** ** The name of the entry, continued *)

Lemma hex_digit_inj (a b : Z) :
  0 <= a < 16 -> 0 <= b < 16 -> hex_digit a = hex_digit b -> a = b.
Proof.
  intros Ha Hb H. apply (f_equal nat_of_ascii) in H. unfold hex_digit in H.
  destruct (Z.ltb_spec a 10), (Z.ltb_spec b 10);
    rewrite !nat_ascii_embedding in H by lia; lia.
Qed.

Lemma Z_of_byte_inj (a b : byte) : Z_of_byte a = Z_of_byte b -> a = b.
Proof.
  intros H. rewrite <- (byte_of_Z_of_byte a), <- (byte_of_Z_of_byte b). now rewrite H.
Qed.

Lemma Sprintf_x_inj (bs : list byte) :
  forall bs', Sprintf_x bs = Sprintf_x bs' -> bs = bs'.
Proof.
  induction bs as [|b bs IH]; intros [|b' bs'] H; try discriminate; [reflexivity|].
  cbn [Sprintf_x] in H. injection H as H1 H2 H3.
  pose proof (Z_of_byte_range b) as Rb. pose proof (Z_of_byte_range b') as Rb'.
  apply hex_digit_inj in H1;
    [| split; [apply Z.div_pos; lia | apply Z.div_lt_upper_bound; lia]
     | split; [apply Z.div_pos; lia | apply Z.div_lt_upper_bound; lia]].
  apply hex_digit_inj in H2;
    [| apply Z.mod_pos_bound; lia | apply Z.mod_pos_bound; lia].
  f_equal; [|now apply IH].
  apply Z_of_byte_inj.
  rewrite (Z.div_mod (Z_of_byte b) 16), (Z.div_mod (Z_of_byte b') 16) by lia.
  now rewrite H1, H2.
Qed.

Lemma append_inj_l (s1 : string) :
  forall s2 t, String.append s1 t = String.append s2 t -> s1 = s2.
Proof.
  assert (L : forall a b, String.length (String.append a b)
                          = (String.length a + String.length b)%nat).
  { induction a as [|c a IHa]; intros b; [reflexivity|].
    cbn [String.length Nat.add]. rewrite <- IHa. reflexivity. }
  induction s1 as [|c s1 IH]; intros [|c2 s2] t H.
  - reflexivity.
  - apply (f_equal String.length) in H. rewrite !L in H. cbn [String.length] in H. lia.
  - apply (f_equal String.length) in H. rewrite !L in H. cbn [String.length] in H. lia.
  - cbn in H. injection H as -> H. f_equal. now apply (IH s2 t).
Qed.

(** X17. The name of the entry tells the digests apart: two argument
    lists get the same file name only if the digests of their joined
    forms are equal, the rendering in hexadecimal losing nothing. *)
Theorem filename_determines_digest (md5_Sum : list byte -> list byte)
    (args args' : list string) :
  filename md5_Sum args = filename md5_Sum args' ->
  md5_Sum (list_byte_of_string (String.concat " " args))
  = md5_Sum (list_byte_of_string (String.concat " " args')).
Proof.
  unfold filename. intros H.
  apply append_inj_l in H. now apply Sprintf_x_inj.
Qed.

Lemma filename_determines_digest_witness :
  filename sample_digest ["a b"; "c"]%string = filename sample_digest ["a"; "b"; "c"]%string
  /\ sample_digest (list_byte_of_string (String.concat " " ["a b"; "c"]%string))
     = sample_digest (list_byte_of_string (String.concat " " ["a"; "b"; "c"]%string)).
Proof.
  split; [reflexivity|].
  exact (filename_determines_digest sample_digest _ _ eq_refl).
Defined.

Lemma has_space_append (a b : string) :
  has_space (String.append a b) = has_space a || has_space b.
Proof.
  induction a as [|c a IH]; [reflexivity|].
  change (String.append (String c a) b) with (String c (String.append a b)).
  cbn [has_space]. rewrite IH. now rewrite orb_assoc.
Qed.

Lemma split_at_space (x : string) :
  forall y r1 r2 : string,
  has_space x = false -> has_space y = false ->
  String.append x (String " " r1) = String.append y (String " " r2) ->
  x = y /\ r1 = r2.
Proof.
  induction x as [|c x IH]; intros [|d y] r1 r2 Hx Hy H.
  - change (String " " r1 = String " " r2) in H. now injection H.
  - change (String " " r1 = String d (String.append y (String " " r2))) in H.
    injection H as <- _. cbn in Hy. discriminate.
  - change (String c (String.append x (String " " r1)) = String " " r2) in H.
    injection H as -> _. cbn in Hx. discriminate.
  - change (String c (String.append x (String " " r1))
            = String d (String.append y (String " " r2))) in H.
    injection H as -> H. cbn [has_space] in Hx, Hy.
    apply orb_false_iff in Hx as [_ Hx]. apply orb_false_iff in Hy as [_ Hy].
    destruct (IH y r1 r2 Hx Hy H) as [-> ->]. auto.
Qed.

Lemma concat_cons2 (x z : string) (l : list string) :
  String.concat " " (x :: z :: l)
  = String.append x (String " " (String.concat " " (z :: l))).
Proof. reflexivity. Qed.

(** X18. Joining the arguments with a space loses nothing as long as no
    argument holds a space: two non-empty argument lists without spaces
    that join to the same text are the same list, so a collision of names
    between different command lines needs a space inside an argument (or a
    collision of the digest). *)
Theorem join_is_injective_without_spaces (l1 : list string) :
  forall l2 : list string,
  l1 <> [] -> l2 <> [] ->
  Forall (fun s => has_space s = false) l1 ->
  Forall (fun s => has_space s = false) l2 ->
  String.concat " " l1 = String.concat " " l2 ->
  l1 = l2.
Proof.
  induction l1 as [|x t1 IH]; intros l2 N1 N2 F1 F2 H; [contradiction|].
  destruct l2 as [|y t2]; [contradiction|].
  inversion F1 as [|? ? Hx F1']; subst. inversion F2 as [|? ? Hy F2']; subst.
  destruct t1 as [|z1 t1], t2 as [|z2 t2].
  - cbn in H. now subst.
  - rewrite concat_cons2 in H. cbn [String.concat] in H.
    rewrite H, has_space_append in Hx. cbn [has_space Ascii.eqb Bool.eqb] in Hx.
    rewrite orb_true_r in Hx. discriminate.
  - rewrite concat_cons2 in H. cbn [String.concat] in H.
    rewrite <- H, has_space_append in Hy. cbn [has_space Ascii.eqb Bool.eqb] in Hy.
    rewrite orb_true_r in Hy. discriminate.
  - rewrite !concat_cons2 in H.
    destruct (split_at_space _ _ _ _ Hx Hy H) as [-> E].
    f_equal. apply IH; try assumption; discriminate.
Qed.

Lemma join_is_injective_without_spaces_witness :
  ["ls"; "-l"]%string <> []
  /\ Forall (fun s => has_space s = false) ["ls"; "-l"]%string
  /\ String.concat " " ["ls"; "-l"]%string = String.concat " " ["ls"; "-l"]%string
  /\ ["ls"; "-l"]%string = ["ls"; "-l"]%string.
Proof.
  assert (N : ["ls"; "-l"]%string <> []) by discriminate.
  assert (F : Forall (fun s => has_space s = false) ["ls"; "-l"]%string)
    by (repeat constructor).
  split; [exact N|]. split; [exact F|]. split; [reflexivity|].
  exact (join_is_injective_without_spaces _ _ N N F F eq_refl).
Defined.

(** ** Runs that leave nothing to replay *)

(** X19. A command that cannot be started is reported on standard error
    and yet the run ends with the exit code 0; nothing is cached, so a
    later run with the same name finds no entry, whatever its ttl, and
    tries the command again. *)
Theorem failed_start_exits_zero (location : string) (fl : Flags) (fs : gmap string File)
    (t0 out_at err_at closed : Z) (op cr : bool) (er : string) (ttl' now' : Z) :
  lookup_entry location (ttl fl) t0 fs = None ->
  ending (run location fl (mkEnv t0 op cr out_at err_at (NotStarted er) closed) fs)
  = Exit 0
  /\ started (run location fl (mkEnv t0 op cr out_at err_at (NotStarted er) closed) fs)
     = false
  /\ lookup_entry location ttl' now'
       (files (run location fl (mkEnv t0 op cr out_at err_at (NotStarted er) closed) fs))
     = None.
Proof.
  intros Hl. unfold run. cbn [now]. rewrite Hl, capture_eq.
  cbn [ending started files child removes Wait exitCode_of].
  repeat split. unfold lookup_entry. now rewrite lookup_delete_eq.
Qed.

Lemma failed_start_exits_zero_witness :
  lookup_entry "k.ts" (-1) 0 ∅ = None
  /\ ending (run "k.ts" (mkFlags (-1) false false)
               (mkEnv 0 true true 0 0 (NotStarted "not found") 0) ∅) = Exit 0.
Proof.
  split; [reflexivity|].
  exact (proj1 (failed_start_exits_zero "k.ts" (mkFlags (-1) false false) ∅
                  0 0 0 0 true true "not found" (-1) 0 eq_refl)).
Defined.

(** X20. A negative ttl other than -1 turns the cache off: an entry whose
    modification time is not in the future is never fresh under it. *)
Theorem negative_ttl_is_never_fresh (ttl now : Z) (stat : File) :
  ttl < -1 -> ModTime stat <= now -> is_fresh ttl now stat = false.
Proof.
  intros Ht Hm. unfold is_fresh.
  apply orb_false_iff. split; [apply Z.eqb_neq; lia|].
  apply Z.leb_gt.
  assert (H0 : 0 <= time_Sub now (ModTime stat)).
  { unfold time_Sub, MinInt64, MaxInt64.
    destruct (Z.ltb_spec (now - ModTime stat) (- 2 ^ 63)); [lia|].
    destruct (Z.ltb_spec (2 ^ 63 - 1) (now - ModTime stat)); lia. }
  pose proof (Z.quot_pos _ Second H0 ltac:(unfold Second; lia)). lia.
Qed.

Lemma negative_ttl_is_never_fresh_witness :
  -2 < -1 /\ ModTime quiet_entry <= 0 /\ is_fresh (-2) 0 quiet_entry = false.
Proof.
  assert (H1 : -2 < -1) by lia.
  assert (H2 : ModTime quiet_entry <= 0) by (cbn; lia).
  split; [exact H1|]. split; [exact H2|].
  exact (negative_ttl_is_never_fresh (-2) 0 quiet_entry H1 H2).
Defined.
